(** * UTXO bookkeeping of the wallet: package [tx] of [src/db/db.go]

    A shallow embedding of the coin registry ([add], [remove]), of the
    script template matcher ([parse], [parseScriptsigH], [parseScriptsigT],
    [checkTxin], [checkTxout], [checkTxout2]) and of the transaction
    processor ([Add]), followed by the properties the specification states
    about them.

    The package keeps its state in two globals, the map [coins] and the
    standard logger.  Both are threaded explicitly through the functions
    below as a [State].  The mutex is not modelled: every function is
    embedded as it runs with the lock held.

    The file [src/db/db.go] also holds package [db], the typed wrapper of
    the key-value store.  Its conversions ([Tob], [MustTob], [ToKey],
    [B2v]) and its scans ([Count], [GetStrings], [GetPrefixs]) are embedded
    further down, over the pairs a read transaction of [bolt] shows. *)

From Stdlib Require Import NArith ZArith List Lia Permutation Sorted.
From Stdlib.Strings Require Import Byte String.
From stdpp Require Import base option list countable gmap strings.

Local Open Scope N_scope.

(** ** Bytes *)

(** Go's [[]byte] and the [string] built from it are both lists of bytes. *)
Abbreviation bytes := (list byte).

#[global] Instance byte_eq_dec : EqDecision byte := Byte.byte_eq_dec.

#[global] Program Instance byte_countable : Countable byte :=
  inj_countable Byte.to_N Byte.of_N _.
Next Obligation. intros b. apply Byte.of_to_N. Qed.

(** [bytes.Equal]: same length and same bytes; [nil] equals the empty slice. *)
Fixpoint bytes_Equal (a b : bytes) : bool :=
  match a, b with
  | nil, nil => true
  | x :: a', y :: b' => Byte.eqb x y && bytes_Equal a' b'
  | _, _ => false
  end.

(** [make([]byte, n)]: n zero bytes. *)
Definition make_bytes (n : nat) : bytes := repeat x00 n.

(** ** Errors *)

(** An [error] is the text [errors.New] or [fmt.Errorf] was given. *)
Abbreviation error := string (only parsing).

Inductive result (A : Type) : Type :=
| Ok (a : A)
| Err (e : error).
Arguments Ok {A} a.
Arguments Err {A} e.

(** ** Package [msg]: the decoded transaction *)

Record TxIn : Type := mkTxIn {
  TxIn_Hash : bytes;      (* hash of the transaction whose output is spent *)
  TxIn_Index : N;         (* uint32: index of that output *)
  TxIn_Script : bytes     (* signature script *)
}.

Record TxOut : Type := mkTxOut {
  TxOut_Value : N;        (* uint64 *)
  TxOut_Script : bytes
}.

Record Tx : Type := mkTx {
  Tx_TxIn : list TxIn;
  Tx_TxOut : list TxOut
}.

(** ** Package [msg]: the positional decoder *)

(** Modelled from the spec: [msg.Unpack] is not in [src/].  The spec gives
    its contract: fields are decoded in declaration order; a [byte] field
    takes one byte; a [len:"20"] field takes that many bytes; a
    [len:"var"] field takes as many bytes as the byte field before it says;
    decoding fails when the buffer is shorter than required.  A decoder is
    a function from the buffer to the decoded value and the rest of the
    buffer, [None] standing for the decoder's error. *)
Definition Reader (A : Type) : Type := bytes -> option (A * bytes).

Definition rret {A} (a : A) : Reader A := fun buf => Some (a, buf).

Definition rbind {A B} (r : Reader A) (k : A -> Reader B) : Reader B :=
  fun buf =>
    match r buf with
    | Some (a, rest) => k a rest
    | None => None
    end.

Notation "x <~ r ;; k" := (rbind r (fun x => k))
  (at level 100, r at next level, right associativity).

(** One [byte] field. *)
Definition read_byte : Reader byte :=
  fun buf =>
    match buf with
    | b :: rest => Some (b, rest)
    | nil => None
    end.

(** A byte-slice field of [n] bytes. *)
Definition read_bytes (n : nat) : Reader bytes :=
  fun buf =>
    if (n <=? length buf)%nat then Some (firstn n buf, skipn n buf) else None.

(** A [len:"var"] field whose length is the byte field [len] before it. *)
Definition read_var (len : byte) : Reader bytes :=
  read_bytes (N.to_nat (Byte.to_N len)).

(** The structs [msg.Unpack] is applied to. *)
Class Unpackable (T : Type) : Type := Unpack : Reader T.

(** ** The script templates *)

Module ScriptSigH.
(** [ScriptSigH] is the header of scriptsig this program supports. *)
Record t : Type := mk {
  SigLength : byte;
  Prefix30 : byte;
  RSLength : byte;
  PrefixR02 : byte;
  RLength : byte;
  R : bytes;            (* len:"var" *)
  PrefixL02 : byte;
  SLength : byte;
  S : bytes             (* len:"var" *)
}.
End ScriptSigH.

Module ScriptSigT.
(** [ScriptSigT] is the tail of scriptsig this program supports. *)
Record t : Type := mk {
  Postfix01 : byte;
  Length : byte;
  Pubkey : bytes        (* len:"var" *)
}.
End ScriptSigT.

Module Script.
(** [Script] is the default out script this program supports. *)
Record t : Type := mk {
  Dup : byte;
  Hash160 : byte;
  HashLength : byte;
  PubHash : bytes;      (* len:"20" *)
  EqualVerify : byte;
  CheckSig : byte
}.
End Script.

Module Script2.
(** [Script2] is another out script this program supports. *)
Record t : Type := mk {
  Length : byte;
  Pubkey : bytes;       (* len:"var" *)
  CheckSig : byte
}.
End Script2.

#[global] Instance Unpack_ScriptSigH : Unpackable ScriptSigH.t :=
  sl <~ read_byte ;;
  p30 <~ read_byte ;;
  rsl <~ read_byte ;;
  pr <~ read_byte ;;
  rl <~ read_byte ;;
  r <~ read_var rl ;;
  pl <~ read_byte ;;
  sl' <~ read_byte ;;
  s <~ read_var sl' ;;
  rret (ScriptSigH.mk sl p30 rsl pr rl r pl sl' s).

#[global] Instance Unpack_ScriptSigT : Unpackable ScriptSigT.t :=
  p01 <~ read_byte ;;
  l <~ read_byte ;;
  pk <~ read_var l ;;
  rret (ScriptSigT.mk p01 l pk).

#[global] Instance Unpack_Script : Unpackable Script.t :=
  d <~ read_byte ;;
  h <~ read_byte ;;
  hl <~ read_byte ;;
  ph <~ read_bytes 20 ;;
  ev <~ read_byte ;;
  cs <~ read_byte ;;
  rret (Script.mk d h hl ph ev cs).

#[global] Instance Unpack_Script2 : Unpackable Script2.t :=
  l <~ read_byte ;;
  pk <~ read_var l ;;
  cs <~ read_byte ;;
  rret (Script2.mk l pk cs).

(** Modelled from the spec: the opcode constants are declared outside
    [src/]; the spec writes the pay-to-public-key-hash template
    [DUP, HASH160, 0x14, hash, EQUALVERIFY, CHECKSIG] as the bytes
    [0x76, 0xA9, 0x14, hash, 0x88, 0xAC]. *)
Definition opDUP : byte := x76.
Definition opHASH160 : byte := xa9.
Definition opEQUALVERIFY : byte := x88.
Definition opCHECKSIG : byte := xac.

(** ** Collaborators *)

(** What the packages [key], [msg] and [behex] provide to this one.  The
    wallet's keys do not change while a transaction is processed, so the
    ownership tests are functions. *)
Class Collaborators : Type := {
  (** [key.PublicKey] *)
  PublicKey : Type;
  (** [key.NewPublicKey]: parses raw bytes into a public key, or fails. *)
  NewPublicKey : bytes -> result PublicKey;
  (** the method [Serialize] of [key.PublicKey] *)
  Serialize : PublicKey -> bytes;
  (** the method [Address] of [key.PublicKey] *)
  Address : PublicKey -> string;
  (** [key.HasPubkey]: is the key one of the wallet's? *)
  HasPubkey : PublicKey -> bool;
  (** [key.HasPubHash]: the wallet's key of a 20-byte hash, if there is one. *)
  HasPubHash : bytes -> option PublicKey;
  (** the method [Hash] of [msg.Tx] *)
  Hash : Tx -> bytes;
  (** the text of the error [msg.Unpack] returns *)
  UnpackErrText : string;
  (** [behex.EncodeToString] *)
  EncodeToString : bytes -> string
}.

(** ** Coins and the registry *)

(** [Coin] represents an available transaction. *)
Record Coin : Type := mkCoin {
  Addr : bytes;
  TxHash : bytes;
  TxIndex : N;            (* uint32 *)
  Value : N;              (* uint64 *)
  Ttype : Z               (* int *)
}.

(** The globals of the package: the map [coins] from the serialized key to
    its coins, and the lines written to the logger, one list of printed
    operands per [log.Println]. *)
Record State : Type := mkState {
  coins : gmap bytes (list Coin);
  logs : list (list string)
}.

(** [coins[a]]: the zero value, a nil slice, when the key is absent. *)
Definition coins_at (st : State) (a : bytes) : list Coin :=
  default [] (coins st !! a).

(** [coins[a] = l] *)
Definition set_coins (a : bytes) (l : list Coin) (st : State) : State :=
  {| coins := <[a := l]> (coins st); logs := logs st |}.

(** [log.Println(args...)] *)
Definition log_Println (args : list string) (st : State) : State :=
  {| coins := coins st; logs := logs st ++ [args] |}.

(** [uint32(i)] of a slice position. *)
Definition uint32 (i : nat) : N := N.of_nat i mod 2 ^ 32.

(** The test of the loop of [remove]:
    [bytes.Equal(c.TxHash, hash) && c.TxIndex == index]. *)
Definition coin_is (hash : bytes) (index : N) (c : Coin) : bool :=
  bytes_Equal (TxHash c) hash && (TxIndex c =? index).

(** The loop of [remove]: the position of the first coin that passes the
    test, counted from [i]. *)
Fixpoint range_find (f : Coin -> bool) (i : nat) (coin : list Coin) : option nat :=
  match coin with
  | [] => None
  | c :: rest => if f c then Some i else range_find f (Datatypes.S i) rest
  end.

(** The body of the loop of [remove] at a match:
    [coin[i] = coin[len(coin)-1]; coin = coin[:len(coin)-1]]. *)
Definition swap_delete (i : nat) (coin : list Coin) : list Coin :=
  match last coin with
  | Some z => take (length coin - 1) (<[i := z]> coin)
  | None => coin
  end.

(** What [swap_delete] leaves of [l1 ++ c :: l2] at the position of [c]:
    the coins before it, then the last coin in its place, then the coins
    between. *)
Definition after_swap (l1 l2 : list Coin) : list Coin :=
  match last l2 with
  | Some z => l1 ++ z :: take (length l2 - 1) l2
  | None => l1
  end.

Definition errCoinNotFound : error := "coin was not found".

Section Tx.
Context `{C : Collaborators}.

(** [add]: [None] is the run-time panic of [tx.TxOut[index]] out of range. *)
Definition add (pub : PublicKey) (tx : Tx) (index : N) (ttype : Z)
    (st : State) : option State :=
  let a := Serialize pub in
  match Tx_TxOut tx !! N.to_nat index with
  | None => None
  | Some o =>
      let c := {| Addr := a; TxHash := Hash tx; TxIndex := index;
                  Value := TxOut_Value o; Ttype := ttype |} in
      Some (set_coins a (coins_at st a ++ [c]) st)
  end.

(** [remove]: the new state and the returned error, [None] for [nil]. *)
Definition remove (pub : PublicKey) (hash : bytes) (index : N)
    (st : State) : State * option error :=
  let a := Serialize pub in
  let coin := coins_at st a in
  match range_find (coin_is hash index) 0 coin with
  | Some i => (set_coins a (swap_delete i coin) st, None)
  | None => (st, Some errCoinNotFound)
  end.

(** [parse]: decode the whole of [data] as a [T]. *)
Definition parse {T : Type} `{Unpackable T} (data : bytes) : result T :=
  match Unpack data with
  | None =>
      Err ("this tx is not supported(unknown format) " +:+ UnpackErrText)
  | Some (s, buf) =>
      if negb (length buf =? 0)%nat then Err "this tx is not supported"
      else Ok s
  end.

Definition errUnknownFormat : error :=
  "this tx is not supported(unknown format)".
Definition errOldScriptsig : error := "old type of scriptsig, ignoring".
Definition errUnsupported : error := "unsuported scriptsig".

(** [parseScriptsigH]: the buffer left after the header. *)
Definition parseScriptsigH (data : bytes) : result bytes :=
  match Unpack (T := ScriptSigH.t) data with
  | None => Err errUnknownFormat
  | Some (s, buf) =>
      if (length buf =? 0)%nat then Err errOldScriptsig
      else if negb (Byte.eqb (ScriptSigH.Prefix30 s) x30)
              || negb (Byte.eqb (ScriptSigH.PrefixR02 s) x02)
              || negb (Byte.eqb (ScriptSigH.PrefixL02 s) x02)
      then Err errUnsupported
      else Ok buf
  end.

(** [parseScriptsigT]: the tail, from the buffer the header left. *)
Definition parseScriptsigT (buf data : bytes) : result ScriptSigT.t :=
  match Unpack (T := ScriptSigT.t) buf with
  | None => Err errUnknownFormat
  | Some (s, buf') =>
      if negb (length buf' =? 0)%nat then Err "this tx is not supported"
      else Ok s
  end.

Definition checkTxin (s : ScriptSigT.t) : result PublicKey :=
  if negb (Byte.eqb (ScriptSigT.Postfix01 s) x01) then Err errUnsupported
  else
    match NewPublicKey (ScriptSigT.Pubkey s) with
    | Err err => Err err
    | Ok pubkey =>
        if negb (HasPubkey pubkey)
        then Err ("not concerened address " +:+ Address pubkey)
        else Ok pubkey
    end.

Definition checkTxout (s : Script.t) : result PublicKey :=
  if negb (Byte.eqb (Script.Dup s) opDUP)
     || negb (Byte.eqb (Script.Hash160 s) opHASH160)
     || negb (Byte.eqb (Script.HashLength s) x14)
     || negb (Byte.eqb (Script.EqualVerify s) opEQUALVERIFY)
     || negb (Byte.eqb (Script.CheckSig s) opCHECKSIG)
  then Err errUnsupported
  else
    match HasPubHash (Script.PubHash s) with
    | None => Err "not concerened address"
    | Some pubkey => Ok pubkey
    end.

Definition checkTxout2 (s : Script2.t) : result PublicKey :=
  if negb (Byte.eqb (Script2.CheckSig s) opCHECKSIG) then Err errUnsupported
  else
    match NewPublicKey (Script2.Pubkey s) with
    | Err err => Err err
    | Ok pubkey =>
        if negb (HasPubkey pubkey)
        then Err ("not concerened address" +:+ Address pubkey)
        else Ok pubkey
    end.

(** The coinbase test of [Add]. *)
Definition is_coinbase (i : TxIn) : bool :=
  bytes_Equal (TxIn_Hash i) (make_bytes 32) && (TxIn_Index i =? 0xffffffff).

(** One turn of the first loop of [Add]. *)
Definition txin_step (st : State) (i : TxIn) : State :=
  if is_coinbase i then log_Println ["coinbase"] st
  else
    match parseScriptsigH (TxIn_Script i) with
    | Err err => log_Println [err] st
    | Ok buf =>
        match parseScriptsigT buf (TxIn_Script i) with
        | Err err => log_Println [err] st
        | Ok s =>
            match checkTxin s with
            | Err err => log_Println [err] st
            | Ok pubkey =>
                match remove pubkey (TxIn_Hash i) (TxIn_Index i) st with
                | (st', Some err) => log_Println [err] st'
                | (st', None) => st'
                end
            end
        end
    end.

Definition errTxoutUnsupported : error := "This txout is not supproted".

(** The [switch] of the second loop of [Add]: the line it logs, the key
    and error it leaves in [pubkey], [err3], and [ttype]. *)
Definition match_txout (script : bytes) : list string * result PublicKey * Z :=
  let err := parse (T := Script.t) script in
  let err2 := parse (T := Script2.t) script in
  match err, err2 with
  | Ok s, _ => (["pubkeyhash scriptsig"], checkTxout s, 0%Z)
  | Err _, Ok s2 => (["pubkey scriptsig"], checkTxout2 s2, 1%Z)
  | Err e, Err e2 => ([e; e2], Err errTxoutUnsupported, 0%Z)
  end.

(** One turn of the second loop of [Add], at position [i]. *)
Definition txout_step (mtx : Tx) (st : State) (i : nat) (o : TxOut)
    : option State :=
  let '(line, pubkey_err3, ttype) := match_txout (TxOut_Script o) in
  let st1 := log_Println line st in
  match pubkey_err3 with
  | Err err3 => Some (log_Println [err3; EncodeToString (Hash mtx)] st1)
  | Ok pubkey => add pubkey mtx (uint32 i) ttype st1
  end.

(** The first loop of [Add]. *)
Definition Add_inputs (ins : list TxIn) (st : State) : State :=
  fold_left txin_step ins st.

(** The second loop of [Add], over the outputs from position [i] on. *)
Fixpoint Add_outputs (mtx : Tx) (i : nat) (outs : list TxOut) (st : State)
    : option State :=
  match outs with
  | [] => Some st
  | o :: outs' =>
      match txout_step mtx st i o with
      | Some st' => Add_outputs mtx (Datatypes.S i) outs' st'
      | None => None
      end
  end.

(** [Add] adds or removes transactions from a tx packet.  The result is
    the state it leaves and the error it returns ([None] for [nil]); the
    outer [None] is a run-time panic. *)
Definition Add (mtx : Tx) (st : State) : option (State * option error) :=
  match Add_outputs mtx 0 (Tx_TxOut mtx) (Add_inputs (Tx_TxIn mtx) st) with
  | Some st' => Some (st', None)
  | None => None
  end.

End Tx.

(** ** The invariant of the registry and the operations that reach a state *)

(** The pair a coin is found by in [remove]. *)
Definition outpoint (c : Coin) : bytes * N := (TxHash c, TxIndex c).

(** No two coins of one address share their (hash, index) pair. *)
Definition coins_inv (st : State) : Prop :=
  map_Forall (fun _ l => NoDup (outpoint <$> l)) (coins st).

(** The package as it is loaded: [coins = make(map[string]Coins)]. *)
Definition initial : State := {| coins := ∅; logs := [] |}.

Section Ops.
Context `{C : Collaborators}.

(** The calls that change the registry. *)
Inductive op : Type :=
| OpAdd (pub : PublicKey) (tx : Tx) (index : N) (ttype : Z)
| OpRemove (pub : PublicKey) (hash : bytes) (index : N)
| OpTx (mtx : Tx).

Definition run_op (o : op) (st : State) : option State :=
  match o with
  | OpAdd pub tx index ttype => add pub tx index ttype st
  | OpRemove pub hash index => Some (fst (remove pub hash index st))
  | OpTx mtx => fst <$> Add mtx st
  end.

Fixpoint run_ops (os : list op) (st : State) : option State :=
  match os with
  | [] => Some st
  | o :: os' =>
      match run_op o st with
      | Some st' => run_ops os' st'
      | None => None
      end
  end.

Definition reachable (st : State) : Prop :=
  exists os, run_ops os initial = Some st.

(** Every coin of the state satisfies [P]. *)
Definition all_coins (P : Coin -> Prop) (st : State) : Prop :=
  map_Forall (fun _ l => Forall P l) (coins st).

(** No coin of the state carries the hash [h]. *)
Definition hash_unused (h : bytes) (st : State) : Prop :=
  all_coins (fun c => TxHash c <> h) st.

(** The coins of the state that carry the hash [h] have an index below
    [n]. *)
Definition idx_below (h : bytes) (n : N) (st : State) : Prop :=
  all_coins (fun c => TxHash c = h -> TxIndex c < n) st.

(** The operation stores no pair the registry already holds for the
    address: an [add] of a pair that is not under the key yet, any
    [remove], a transaction whose hash no stored coin carries and whose
    output positions fit a [uint32]. *)
Definition fresh_op (o : op) (st : State) : Prop :=
  match o with
  | OpAdd pub tx index _ =>
      Forall (fun c => outpoint c <> (Hash tx, index))
             (coins_at st (Serialize pub))
  | OpRemove _ _ _ => True
  | OpTx mtx =>
      hash_unused (Hash mtx) st /\ N.of_nat (length (Tx_TxOut mtx)) <= 2 ^ 32
  end.

(** The states reached from the loaded package through such operations. *)
Inductive fresh_reachable : State -> Prop :=
| fresh_initial : fresh_reachable initial
| fresh_step (o : op) (st st' : State) :
    fresh_reachable st -> fresh_op o st -> run_op o st = Some st' ->
    fresh_reachable st'.

End Ops.

(** ** Skipping one input *)

(** The state [st] with the lines [l] written before its own. *)
Definition prepend_logs (l : list (list string)) (st : State) : State :=
  {| coins := coins st; logs := l ++ logs st |}.

Section Skip.
Context `{C : Collaborators}.

(** In [mtx], the turn of the input between the inputs [pre] and [post]
    does nothing but write the line [line]: from every state, [Add]
    returns [nil] and leaves the registry that the outputs and the inputs
    [post] leave when they are run straight after [pre], and the log of
    that run with [line] written at the turn of the input. *)
Definition turn_only_logs (mtx : Tx) (pre post : list TxIn)
    (line : list string) : Prop :=
  forall st0,
    let st1 := Add_inputs pre st0 in
    exists st' l,
      Add_outputs mtx 0 (Tx_TxOut mtx) (Add_inputs post st1) = Some st' /\
      logs st' = logs st1 ++ l /\
      Add mtx st0
      = Some ({| coins := coins st'; logs := logs st1 ++ [line] ++ l |},
              None).
End Skip.

(** ** A small wallet to run the functions on *)

Module Demo.

(** The one key of the wallet and the hash it is known by. *)
Definition key1 : bytes := [x02; xaa; xbb].
Definition hash1 : bytes := repeat x11 20.

#[global] Instance wallet : Collaborators := {|
  PublicKey := bytes;
  NewPublicKey := fun b =>
    match b with [] => Err "empty key" | _ => Ok b end;
  Serialize := fun k => k;
  Address := fun k => string_of_list_byte k;
  HasPubkey := fun k => bytes_Equal k key1;
  HasPubHash := fun h => if bytes_Equal h hash1 then Some key1 else None;
  Hash := fun tx =>
    repeat (if (length (Tx_TxIn tx) =? 0)%nat then xc0 else xc1) 32;
  UnpackErrText := "EOF";
  EncodeToString := string_of_list_byte
|}.

(** The coin [tx_pay] below leaves under [key1], and the registry that
    holds it once. *)
Definition coin1 : Coin :=
  {| Addr := key1; TxHash := repeat xc1 32; TxIndex := 0; Value := 50;
     Ttype := 0 |}.
Definition st_paid : State :=
  {| coins := {[ key1 := [coin1] ]}; logs := [] |}.

(** Pay-to-public-key-hash to [hash1]. *)
Definition p2pkh : bytes := [x76; xa9; x14] ++ hash1 ++ [x88; xac].

(** Pay-to-public-key to [key1]. *)
Definition p2pk : bytes := [x03] ++ key1 ++ [xac].

(** A signature script with one-byte R and S, signed by [key1]. *)
Definition sig_header : bytes :=
  [x09; x30; x06; x02; x01; x7f; x02; x01; x7e].
Definition sig_key1 : bytes := sig_header ++ [x01; x03] ++ key1.

(** An input that spends [coin1] with [sig_key1]. *)
Definition spend_in : TxIn :=
  {| TxIn_Hash := repeat xc1 32; TxIn_Index := 0;
     TxIn_Script := sig_key1 |}.

(** An input whose script is the header alone. *)
Definition old_in : TxIn :=
  {| TxIn_Hash := repeat xc1 32; TxIn_Index := 0;
     TxIn_Script := sig_header |}.

(** 25 bytes that fit both output templates: a 23-byte blob behind its
    length byte and before CHECKSIG. *)
Definition both : bytes := [x17] ++ repeat x00 23 ++ [xac].

Definition coinbase_in : TxIn :=
  {| TxIn_Hash := make_bytes 32; TxIn_Index := 0xffffffff;
     TxIn_Script := [] |}.

(** A transaction that pays 50 to [hash1]. *)
Definition tx_pay : Tx :=
  {| Tx_TxIn := [coinbase_in];
     Tx_TxOut := [ {| TxOut_Value := 50; TxOut_Script := p2pkh |} ] |}.

(** A transaction with the coinbase input alone. *)
Definition tx_cb : Tx := {| Tx_TxIn := [coinbase_in]; Tx_TxOut := [] |}.

(** A transaction whose input has the header-only script. *)
Definition tx_old : Tx := {| Tx_TxIn := [old_in]; Tx_TxOut := [] |}.

(** The states [tx_pay] leaves when it is processed once, and twice. *)
Definition st_once : State :=
  {| coins := {[ key1 := [coin1] ]};
     logs := [["coinbase"]; ["pubkeyhash scriptsig"]] |}.
Definition st_twice : State :=
  {| coins := {[ key1 := [coin1; coin1] ]};
     logs := [["coinbase"]; ["pubkeyhash scriptsig"];
              ["coinbase"]; ["pubkeyhash scriptsig"]] |}.

End Demo.

(** ** [Coins] as a [sort.Interface] *)

(** [Len] returns len of coins. *)
Definition Coins_Len (c : list Coin) : nat := length c.

(** [Less] returns true if coins[i] < coins[j], by value; [None] is the
    panic of an index out of range. *)
Definition Coins_Less (c : list Coin) (i j : nat) : option bool :=
  match c !! i, c !! j with
  | Some x, Some y => Some (Value x <? Value y)
  | _, _ => None
  end.

(** [Swap] swaps c[i] and c[j]; both are read, then both are written. *)
Definition Coins_Swap (c : list Coin) (i j : nat) : option (list Coin) :=
  match c !! i, c !! j with
  | Some x, Some y => Some (<[j := x]> (<[i := y]> c))
  | _, _ => None
  end.

(** ** What the processor may store *)

Section Provenance.
Context `{C : Collaborators}.

(** The keys the ownership tests of [checkTxin], [checkTxout] and
    [checkTxout2] let through. *)
Definition owned_key (pub : PublicKey) : Prop :=
  HasPubkey pub = true \/ exists h, HasPubHash h = Some pub.

(** Every coin is filed under the key it names in [Addr]. *)
Definition addr_inv (st : State) : Prop :=
  map_Forall (fun a l => Forall (fun c => Addr c = a) l) (coins st).

(** The coin [c] is what [Add] makes of an output of [mtx] for the key
    [a]. *)
Definition snapshot_of (mtx : Tx) (a : bytes) (c : Coin) : Prop :=
  Addr c = a /\ TxHash c = Hash mtx /\ (Ttype c = 0%Z \/ Ttype c = 1%Z) /\
  exists o,
    Tx_TxOut mtx !! N.to_nat (TxIndex c) = Some o /\ Value c = TxOut_Value o.

(** The two errors of [parse]: the buffer ran out, or bytes are left. *)
Definition errShort : error :=
  "this tx is not supported(unknown format) " +:+ UnpackErrText.
Definition errLong : error := "this tx is not supported".

End Provenance.

(** ** Package [db]: values, keys and key prefixes *)

(** [binary.LittleEndian.PutUint64] into [make([]byte, 8)]; [byte(x)] keeps
    the low eight bits. *)
Definition to_byte (n : N) : byte := default x00 (Byte.of_N (n mod 256)).

Definition PutUint64 (v : N) : bytes :=
  [to_byte v; to_byte (N.shiftr v 8); to_byte (N.shiftr v 16);
   to_byte (N.shiftr v 24); to_byte (N.shiftr v 32); to_byte (N.shiftr v 40);
   to_byte (N.shiftr v 48); to_byte (N.shiftr v 56)].

(** [binary.LittleEndian.Uint64]: [None] is the panic of the bounds check
    [b[7]]. *)
Definition Uint64 (b : bytes) : option N :=
  match b with
  | b0 :: b1 :: b2 :: b3 :: b4 :: b5 :: b6 :: b7 :: _ =>
      Some (N.lor (Byte.to_N b0)
           (N.lor (N.shiftl (Byte.to_N b1) 8)
           (N.lor (N.shiftl (Byte.to_N b2) 16)
           (N.lor (N.shiftl (Byte.to_N b3) 24)
           (N.lor (N.shiftl (Byte.to_N b4) 32)
           (N.lor (N.shiftl (Byte.to_N b5) 40)
           (N.lor (N.shiftl (Byte.to_N b6) 48)
                  (N.shiftl (Byte.to_N b7) 56))))))))
  | _ => None
  end.

(** The conversions [uint64(t)] of a signed 64-bit integer and [int64(u)],
    [int(u)] of an unsigned one ([int] has 64 bits). *)
Definition uint64_of_int (t : Z) : N := Z.to_N (t mod 2 ^ 64).
Definition int_of_uint64 (u : N) : Z :=
  if u <? 2 ^ 63 then Z.of_N u else (Z.of_N u - 2 ^ 64)%Z.

(** [bytes.HasPrefix] *)
Definition HasPrefix (s pre : bytes) : bool :=
  (length pre <=? length s)%nat && bytes_Equal (take (length pre) s) pre.

(** [bytes.IndexByte]: [None] for -1. *)
Fixpoint IndexByte (b : bytes) (c : byte) : option nat :=
  match b with
  | [] => None
  | x :: b' =>
      if Byte.eqb x c then Some 0%nat
      else match IndexByte b' c with
           | Some i => Some (Datatypes.S i)
           | None => None
           end
  end.

(** The order [bolt] keeps the keys of a bucket in: [bytes.Compare]. *)
Fixpoint bytes_leb (a b : bytes) : bool :=
  match a, b with
  | [], _ => true
  | _ :: _, [] => false
  | x :: a', y :: b' =>
      if Byte.to_N x <? Byte.to_N y then true
      else if Byte.to_N x =? Byte.to_N y then bytes_leb a' b'
      else false
  end.

(** What [encoding/json] provides. *)
Class Json : Type := {
  JValue : Type;
  json_Marshal : JValue -> result bytes;
  json_Unmarshal : bytes -> result JValue
}.

(** What a read transaction of [bolt] shows of a bucket: [None] when
    [tx.Bucket] returns nil, else the pairs in the order [ForEach] visits
    them.  A Go [string] is its bytes. *)
Definition BoltTx : Type := bytes -> option (list (bytes * bytes)).

Section Db.
Context `{J : Json}.

(** The dynamic types [Tob] tells apart. *)
Inductive value : Type :=
| VBytes (t : bytes)
| VString (t : bytes)
| VInt (t : Z)
| VInt64 (t : Z)
| VUint64 (t : N)
| VOther (t : JValue).

(** [Tob]: the bytes of [v]. *)
Definition Tob (v : value) : result bytes :=
  match v with
  | VBytes t => Ok t
  | VString t => Ok t
  | VInt t => Ok (PutUint64 (uint64_of_int t))
  | VInt64 t => Ok (PutUint64 (uint64_of_int t))
  | VUint64 t => Ok (PutUint64 t)
  | VOther t => json_Marshal t
  end.

(** [MustTob] is [Tob], except that this fatals when error: [None] is the
    exit of [log.Fatal]. *)
Definition MustTob (v : value) : option bytes :=
  match Tob v with
  | Ok b => Some b
  | Err _ => None
  end.

(** The loop of [ToKey], from the key [r] built so far. *)
Fixpoint ToKey_from (r : bytes) (v : list value) : option bytes :=
  match v with
  | [] => Some r
  | vv :: v' =>
      match MustTob vv with
      | None => None
      | Some b =>
          let r1 := r ++ b in
          let r2 := match vv with VString _ => r1 ++ [x00] | _ => r1 end in
          ToKey_from r2 v'
      end
  end.

(** [ToKey] makes key of db from [v]. *)
Definition ToKey (v : list value) : option bytes := ToKey_from [] v.

(** The pointer types [B2v] tells apart, and what it stores through them. *)
Inductive target : Type := TString | TInt64 | TInt | TUint64 | TNil | TOther.

Inductive stored : Type :=
| SString (t : bytes)
| SInt64 (t : Z)
| SInt (t : Z)
| SUint64 (t : N)
| SNothing
| SOther (t : JValue).

(** [B2v] converts from [from] to [to] according to [to] type: what it
    stores and the error it returns; the outer [None] is the panic of
    [Uint64].  The case [nil] has an empty body and stores nothing. *)
Definition B2v (from : bytes) (to : target) : option (stored * option error) :=
  match to with
  | TString => Some (SString from, None)
  | TInt64 =>
      match Uint64 from with
      | Some u => Some (SInt64 (int_of_uint64 u), None)
      | None => None
      end
  | TInt =>
      match Uint64 from with
      | Some u => Some (SInt (int_of_uint64 u), None)
      | None => None
      end
  | TUint64 =>
      match Uint64 from with
      | Some u => Some (SUint64 u, None)
      | None => None
      end
  | TNil => Some (SNothing, None)
  | TOther =>
      match json_Unmarshal from with
      | Ok j => Some (SOther j, None)
      | Err e => Some (SNothing, Some e)
      end
  end.

End Db.

(** The variables the callback of [GetPrefixs] closes over: [last] is only
    written, so it is left out. *)
Record prefixes : Type := mkPrefixes {
  cnt : list bytes;
  blast : option bytes
}.

Definition errNoStringPrefix : error := "not have string prefix".

(** The callback of [GetPrefixs] at the key [k]. *)
Definition GetPrefixs_fn (p : prefixes) (k : bytes) : prefixes * option error :=
  if match blast p with
     | Some bl => HasPrefix k bl
     | None => false
     end
  then (p, None)
  else
    match IndexByte k x00 with
    | None => (p, Some errNoStringPrefix)
    | Some loc =>
        ({| cnt := cnt p ++ [take loc k];
            blast := Some (take (loc + 1) k) |}, None)
    end.

(** [ForEach] with that callback: every pair in turn, up to the first
    error. *)
Fixpoint GetPrefixs_each (pairs : list (bytes * bytes)) (p : prefixes)
    : prefixes * option error :=
  match pairs with
  | [] => (p, None)
  | (k, _) :: pairs' =>
      match GetPrefixs_fn p k with
      | (p', None) => GetPrefixs_each pairs' p'
      | (p', Some e) => (p', Some e)
      end
  end.

(** [GetPrefixs] get string prefixs of keys. *)
Definition GetPrefixs (tx : BoltTx) (bucket : bytes)
    : list bytes * option error :=
  match tx bucket with
  | None => ([], Some ("bucket not found " +:+ string_of_list_byte bucket))
  | Some pairs =>
      let '(p, err) :=
        GetPrefixs_each pairs {| cnt := []; blast := None |} in
      (cnt p, err)
  end.

(** ** Package [db]: scans by prefix *)

(** A cursor of [bolt] is the pairs from its position on.  Past the last
    pair it yields a nil key and value, and [Next] leaves it there. *)
Definition cursor_key (c : list (bytes * bytes)) : bytes :=
  match c with
  | [] => []
  | (k, _) :: _ => k
  end.

Definition cursor_value (c : list (bytes * bytes)) : bytes :=
  match c with
  | [] => []
  | (_, v) :: _ => v
  end.

(** [Cursor.Seek]: to the first key that is not below [prefix]. *)
Fixpoint Seek (prefix : bytes) (pairs : list (bytes * bytes))
    : list (bytes * bytes) :=
  match pairs with
  | [] => []
  | (k, v) :: rest => if bytes_leb prefix k then pairs else Seek prefix rest
  end.

(** [Cursor.Next] *)
Definition Next (c : list (bytes * bytes)) : list (bytes * bytes) := tail c.

(** The loop of [Count], [fuel] turns of it at most: [None] when the loop
    has not ended by then. *)
Fixpoint Count_loop (fuel : nat) (prefix : bytes) (c : list (bytes * bytes))
    (n : nat) : option nat :=
  match fuel with
  | O => None
  | Datatypes.S fuel' =>
      if HasPrefix (cursor_key c) prefix
      then Count_loop fuel' prefix (Next c) (Datatypes.S n)
      else Some n
  end.

(** [Count] counts #data whose key has prefix. *)
Definition Count (fuel : nat) (tx : BoltTx) (bucket prefix : bytes)
    : option (nat * option error) :=
  match tx bucket with
  | None =>
      Some (O, Some ("bucket not found " +:+ string_of_list_byte bucket))
  | Some pairs =>
      match Count_loop fuel prefix (Seek prefix pairs) 0 with
      | Some n => Some (n, None)
      | None => None
      end
  end.

Section Scan.
Context `{J : Json}.

(** The loop of [GetStrings], [fuel] turns of it at most. *)
Fixpoint GetStrings_loop (fuel : nat) (prefix : bytes)
    (c : list (bytes * bytes)) (acc : list bytes)
    : option (list bytes * option error) :=
  match fuel with
  | O => None
  | Datatypes.S fuel' =>
      if HasPrefix (cursor_key c) prefix
      then
        match B2v (cursor_value c) TString with
        | Some (SString str, None) =>
            GetStrings_loop fuel' prefix (Next c) (acc ++ [str])
        | Some (_, Some err) => Some ([], Some err)
        | _ => None
        end
      else Some (acc, None)
  end.

(** [GetStrings] returns string values whose key has prefix. *)
Definition GetStrings (fuel : nat) (tx : BoltTx) (bucket prefix : bytes)
    : option (list bytes * option error) :=
  match tx bucket with
  | None =>
      Some ([], Some ("bucket not found " +:+ string_of_list_byte bucket))
  | Some pairs => GetStrings_loop fuel prefix (Seek prefix pairs) []
  end.

End Scan.

(** What the loop of [GetPrefixs] keeps.  The string a key was filed under
    is in [cnt] whenever [blast] is set. *)
Definition tied (p : prefixes) : Prop :=
  forall bl, blast p = Some bl -> exists r, r ∈ cnt p /\ bl = r ++ [x00].

(** What the loop keeps when the keys come in order: the strings found are
    distinct; only the last of them can still start a key to come; and the
    key that set [blast] is below all keys to come. *)
Definition in_order (p : prefixes) (rem : list bytes) : Prop :=
  NoDup (cnt p) /\
  (forall r k, r ∈ cnt p -> k ∈ rem -> HasPrefix k (r ++ [x00]) = true ->
     blast p = Some (r ++ [x00])) /\
  (forall bl, blast p = Some bl ->
     exists k0, HasPrefix k0 bl = true /\
                Forall (fun k => bytes_leb k0 k = true) rem).

(** ** More of the small wallet *)

Module Demo2.

(** Nothing but raw values goes through [encoding/json] here. *)
#[global] Instance no_json : Json := {|
  JValue := unit;
  json_Marshal := fun _ => Err "unsupported";
  json_Unmarshal := fun _ => Err "unsupported"
|}.

(** An address no key of the small wallet serializes to. *)
Definition stranger : bytes := [x09].

(** A bucket with the keys of two names. *)
Definition spend_keys : list (bytes * bytes) :=
  [ ([x61; x00; x01], [x10]); ([x61; x00; x02], [x11]);
    ([x62; x00; x01], [x12]) ].
Definition one_bucket : BoltTx :=
  fun b => if bytes_Equal b [x73] then Some spend_keys else None.

(** A transaction that pays 9 to [key1] by the second template. *)
Definition tx_pk : Tx :=
  {| Tx_TxIn := [];
     Tx_TxOut := [ {| TxOut_Value := 9; TxOut_Script := Demo.p2pk |} ] |}.

(** An input signed by [key1] whose first DER marker is 0x31. *)
Definition bad_in : TxIn :=
  {| TxIn_Hash := repeat xc1 32; TxIn_Index := 0;
     TxIn_Script := [x09; x31; x06; x02; x01; x7f; x02; x01; x7e]
                    ++ [x01; x03] ++ Demo.key1 |}.

(** What [remove] leaves of [st_paid]: the key with an empty list. *)
Definition st_spent : State :=
  {| coins := {[ Demo.key1 := [] ]}; logs := [] |}.

End Demo2.

(** * Properties *)

(** ** Bytes and the decoder *)

Lemma bytes_Equal_eq (a b : bytes) : bytes_Equal a b = true <-> a = b.
Proof.
  revert b; induction a as [|x a IH]; intros [|y b]; simpl; try easy.
  rewrite andb_true_iff, IH. split.
  - intros [Hxy ->]. now rewrite (Byte.byte_dec_bl _ _ Hxy).
  - intros [= -> ->]. split; [now apply Byte.byte_dec_lb | reflexivity].
Qed.

Lemma coin_is_true (hash : bytes) (index : N) (c : Coin) :
  coin_is hash index c = true <-> outpoint c = (hash, index).
Proof.
  unfold coin_is, outpoint.
  rewrite andb_true_iff, bytes_Equal_eq, N.eqb_eq. split.
  - now intros [-> ->].
  - now intros [= -> ->].
Qed.

Lemma coin_is_false (hash : bytes) (index : N) (c : Coin) :
  coin_is hash index c = false <-> outpoint c <> (hash, index).
Proof.
  rewrite <- coin_is_true. destruct (coin_is hash index c); split; congruence.
Qed.

(** ** The loop of [remove] *)

Section RangeFind.
Variable f : Coin -> bool.

Lemma range_find_None (i : nat) (l : list Coin) :
  range_find f i l = None <-> Forall (fun c => f c = false) l.
Proof.
  revert i; induction l as [|c l IH]; intros i; simpl.
  - split; [constructor | reflexivity].
  - destruct (f c) eqn:Hc.
    + split; [discriminate | intros H; inversion H; congruence].
    + rewrite IH. split; [now constructor | intros H; now inversion H].
Qed.

Lemma range_find_first (i : nat) (l1 l2 : list Coin) (c : Coin) :
  Forall (fun c => f c = false) l1 -> f c = true ->
  range_find f i (l1 ++ c :: l2) = Some (i + length l1)%nat.
Proof.
  intros H1 Hc. revert i; induction H1 as [|x l1 Hx _ IH]; intros i; simpl.
  - rewrite Hc. f_equal. lia.
  - rewrite Hx, IH. f_equal. lia.
Qed.

Lemma range_find_Some (i j : nat) (l : list Coin) :
  range_find f i l = Some j ->
  exists l1 c l2,
    l = l1 ++ c :: l2 /\ j = (i + length l1)%nat /\ f c = true /\
    Forall (fun c => f c = false) l1.
Proof.
  revert i; induction l as [|c l IH]; intros i; simpl; [discriminate |].
  destruct (f c) eqn:Hc.
  - intros [= <-]. exists [], c, l. simpl. repeat split; auto; lia.
  - intros H. destruct (IH _ H) as (l1 & c' & l2 & -> & -> & Hc' & H1).
    exists (c :: l1), c', l2. simpl. repeat split; auto; lia.
Qed.
End RangeFind.

(** ** Overwrite with the last element, then shrink *)

Lemma swap_delete_last (l1 : list Coin) (c : Coin) :
  swap_delete (length l1) (l1 ++ [c]) = l1.
Proof.
  unfold swap_delete. rewrite last_snoc, length_app. simpl.
  replace (length l1 + 1 - 1)%nat with (length l1) by lia.
  replace (length l1) with (length l1 + 0)%nat at 2 by lia.
  rewrite insert_app_r. simpl. apply take_app_length.
Qed.

Lemma swap_delete_mid (l1 l2 : list Coin) (c z : Coin) :
  swap_delete (length l1) (l1 ++ c :: l2 ++ [z]) = l1 ++ z :: l2.
Proof.
  unfold swap_delete.
  replace (l1 ++ c :: l2 ++ [z]) with ((l1 ++ c :: l2) ++ [z])
    by now rewrite <- app_assoc.
  rewrite last_snoc, length_app. simpl.
  replace (length (l1 ++ c :: l2) + 1 - 1)%nat with (length (l1 ++ c :: l2))
    by lia.
  rewrite <- app_assoc. simpl.
  replace (length l1) with (length l1 + 0)%nat at 1 by lia.
  rewrite insert_app_r. simpl.
  replace (l1 ++ z :: l2 ++ [z]) with ((l1 ++ z :: l2) ++ [z])
    by now rewrite <- app_assoc.
  apply take_app_length'. rewrite !length_app. reflexivity.
Qed.

Lemma swap_delete_at (l1 l2 : list Coin) (c : Coin) :
  swap_delete (length l1) (l1 ++ c :: l2) = after_swap l1 l2.
Proof.
  unfold after_swap. destruct (last l2) as [z|] eqn:E.
  - apply last_Some in E as [l2' ->]. rewrite swap_delete_mid.
    rewrite length_app. simpl.
    replace (length l2' + 1 - 1)%nat with (length l2') by lia.
    now rewrite take_app_length.
  - apply last_None in E as ->. apply swap_delete_last.
Qed.

Lemma after_swap_Permutation (l1 l2 : list Coin) :
  after_swap l1 l2 ≡ₚ l1 ++ l2.
Proof.
  unfold after_swap. destruct (last l2) as [z|] eqn:E.
  - apply last_Some in E as [l2' ->]. rewrite length_app. simpl.
    replace (length l2' + 1 - 1)%nat with (length l2') by lia.
    rewrite take_app_length. apply Permutation_app_head.
    rewrite Permutation_app_comm. reflexivity.
  - apply last_None in E as ->. now rewrite app_nil_r.
Qed.

Lemma after_swap_length (l1 l2 : list Coin) :
  length (after_swap l1 l2) = (length l1 + length l2)%nat.
Proof. now rewrite after_swap_Permutation, length_app. Qed.

(** ** The registry *)

Section Registry.
Context `{C : Collaborators}.

Lemma coins_at_set_coins_eq (a : bytes) (l : list Coin) (st : State) :
  coins_at (set_coins a l st) a = l.
Proof. unfold coins_at, set_coins. simpl. now rewrite lookup_insert_eq. Qed.

Lemma coins_at_set_coins_ne (a b : bytes) (l : list Coin) (st : State) :
  a <> b -> coins_at (set_coins a l st) b = coins_at st b.
Proof.
  intros Hne. unfold coins_at, set_coins. simpl.
  now rewrite lookup_insert_ne.
Qed.

(** [remove] at the first coin that passes the test. *)
Lemma remove_found (pub : PublicKey) (hash : bytes) (index : N)
    (st : State) (l1 l2 : list Coin) (c : Coin) :
  coins_at st (Serialize pub) = l1 ++ c :: l2 ->
  Forall (fun c' => outpoint c' <> (hash, index)) l1 ->
  outpoint c = (hash, index) ->
  remove pub hash index st
  = (set_coins (Serialize pub) (after_swap l1 l2) st, None).
Proof.
  intros Hl H1 Hc. unfold remove. rewrite Hl.
  rewrite (range_find_first _ 0 l1 l2 c).
  - simpl. now rewrite swap_delete_at.
  - eapply Forall_impl; [exact H1 |]. intros c'. apply coin_is_false.
  - now apply coin_is_true.
Qed.

(** [remove] either fails and leaves the state, or stops at the first
    match. *)
Lemma remove_cases (pub : PublicKey) (hash : bytes) (index : N) (st : State) :
  (Forall (fun c => outpoint c <> (hash, index)) (coins_at st (Serialize pub))
   /\ remove pub hash index st = (st, Some errCoinNotFound))
  \/ (exists l1 c l2,
        coins_at st (Serialize pub) = l1 ++ c :: l2 /\
        Forall (fun c' => outpoint c' <> (hash, index)) l1 /\
        outpoint c = (hash, index) /\
        remove pub hash index st
        = (set_coins (Serialize pub) (after_swap l1 l2) st, None)).
Proof.
  destruct (range_find (coin_is hash index) 0 (coins_at st (Serialize pub)))
    as [j|] eqn:E.
  - right. apply range_find_Some in E as (l1 & c & l2 & Hl & _ & Hc & H1).
    exists l1, c, l2.
    assert (H1' : Forall (fun c' => outpoint c' <> (hash, index)) l1).
    { eapply Forall_impl; [exact H1 |]. intros c'. apply coin_is_false. }
    apply coin_is_true in Hc. repeat split; auto.
    apply (remove_found pub hash index st l1 l2 c); auto.
  - left. split.
    + apply range_find_None in E. eapply Forall_impl; [exact E |].
      intros c'. apply coin_is_false.
    + unfold remove. now rewrite E.
Qed.

(** C3.  When no coin stored under the key has the pair (hash, index),
    [remove] returns the error "coin was not found" and the state it
    leaves is the state it was given: every address keeps its list. *)
Theorem remove_absent (pub : PublicKey) (hash : bytes) (index : N)
    (st : State) :
  Forall (fun c => outpoint c <> (hash, index))
         (coins_at st (Serialize pub)) ->
  remove pub hash index st = (st, Some errCoinNotFound).
Proof.
  intros H. unfold remove.
  assert (E : range_find (coin_is hash index) 0
                (coins_at st (Serialize pub)) = None).
  { apply range_find_None. eapply Forall_impl; [exact H |].
    intros c. apply coin_is_false. }
  now rewrite E.
Qed.

(** C10.  When the list of the key holds a coin with the pair
    (hash, index), [remove] succeeds and takes out the first such coin in
    list order, and only it: the list splits as [l1 ++ c :: l2] with no
    match in [l1] and [c] a match; the new list of the key is
    [after_swap l1 l2], which has the coins of [l1 ++ l2] and one coin
    less than before; the coins of [l2], matches among them too, are
    still stored, and no other address changes. *)
Theorem remove_first_match (pub : PublicKey) (hash : bytes) (index : N)
    (st : State) :
  Exists (fun c => outpoint c = (hash, index))
         (coins_at st (Serialize pub)) ->
  exists l1 c l2 st',
    coins_at st (Serialize pub) = l1 ++ c :: l2 /\
    Forall (fun c' => outpoint c' <> (hash, index)) l1 /\
    outpoint c = (hash, index) /\
    remove pub hash index st = (st', None) /\
    coins_at st' (Serialize pub) = after_swap l1 l2 /\
    coins_at st' (Serialize pub) ≡ₚ l1 ++ l2 /\
    S (length (coins_at st' (Serialize pub)))
    = length (coins_at st (Serialize pub)) /\
    (forall c', c' ∈ l2 -> c' ∈ coins_at st' (Serialize pub)) /\
    (forall a, a <> Serialize pub -> coins_at st' a = coins_at st a) /\
    logs st' = logs st.
Proof.
  intros Hex.
  destruct (remove_cases pub hash index st)
    as [[Hno _] | (l1 & c & l2 & Hl & H1 & Hc & Hrm)].
  - exfalso. apply Exists_exists in Hex as (c & Hin & Hc).
    rewrite Forall_forall in Hno. now apply (Hno c Hin).
  - exists l1, c, l2, (set_coins (Serialize pub) (after_swap l1 l2) st).
    rewrite coins_at_set_coins_eq.
    repeat split; auto.
    + apply after_swap_Permutation.
    + rewrite after_swap_length, Hl, length_app. simpl. lia.
    + intros c' Hin. rewrite after_swap_Permutation.
      apply elem_of_app. now right.
    + intros a Hne. now apply coins_at_set_coins_ne.
Qed.

Lemma add_Some (pub : PublicKey) (tx : Tx) (index : N) (ttype : Z)
    (st st1 : State) :
  add pub tx index ttype st = Some st1 ->
  exists o,
    Tx_TxOut tx !! N.to_nat index = Some o /\
    st1 = set_coins (Serialize pub)
            (coins_at st (Serialize pub)
             ++ [ {| Addr := Serialize pub; TxHash := Hash tx;
                     TxIndex := index; Value := TxOut_Value o;
                     Ttype := ttype |} ]) st.
Proof.
  unfold add. destruct (Tx_TxOut tx !! N.to_nat index) as [o|]; [|easy].
  intros [= <-]. now exists o.
Qed.

(** C8.  After [add] has stored a coin for (key, hash of [tx], [index]),
    [remove] of the same key, hash and index succeeds, and the key has as
    many coins as before the [add]. *)
Theorem add_then_remove_count (pub : PublicKey) (tx : Tx) (index : N)
    (ttype : Z) (st st1 : State) :
  add pub tx index ttype st = Some st1 ->
  exists st2,
    remove pub (Hash tx) index st1 = (st2, None) /\
    length (coins_at st2 (Serialize pub))
    = length (coins_at st (Serialize pub)).
Proof.
  intros Hadd. apply add_Some in Hadd as (o & _ & ->).
  set (c := {| Addr := Serialize pub; TxHash := Hash tx; TxIndex := index;
               Value := TxOut_Value o; Ttype := ttype |}).
  destruct (remove_cases pub (Hash tx) index
              (set_coins (Serialize pub)
                 (coins_at st (Serialize pub) ++ [c]) st))
    as [[Hno _] | (l1 & c' & l2 & Hl & _ & _ & Hrm)].
  - exfalso. rewrite coins_at_set_coins_eq in Hno.
    apply Forall_app in Hno as [_ Hno]. inversion Hno as [|? ? Hc _].
    now apply Hc.
  - eexists. split; [exact Hrm |].
    rewrite coins_at_set_coins_eq, after_swap_length.
    rewrite coins_at_set_coins_eq in Hl.
    apply (f_equal length) in Hl. rewrite !length_app in Hl.
    simpl in Hl. lia.
Qed.

End Registry.

(** ** The transaction processor: it returns, and returns [nil] *)

Lemma uint32_le (i : nat) : (N.to_nat (uint32 i) <= i)%nat.
Proof.
  unfold uint32.
  assert (H : N.of_nat i mod 2 ^ 32 <= N.of_nat i)
    by (apply N.Div0.mod_le).
  lia.
Qed.

Lemma uint32_small (i : nat) : N.of_nat i < 2 ^ 32 -> uint32 i = N.of_nat i.
Proof. intros H. unfold uint32. now apply N.mod_small. Qed.

Section Processor.
Context `{C : Collaborators}.

Lemma is_coinbase_true (i : TxIn) :
  is_coinbase i = true
  <-> TxIn_Hash i = make_bytes 32 /\ TxIn_Index i = 0xffffffff.
Proof.
  unfold is_coinbase. now rewrite andb_true_iff, bytes_Equal_eq, N.eqb_eq.
Qed.

Lemma Add_inputs_app (l1 l2 : list TxIn) (st : State) :
  Add_inputs (l1 ++ l2) st = Add_inputs l2 (Add_inputs l1 st).
Proof. apply fold_left_app. Qed.

Lemma Add_inputs_cons (i : TxIn) (l : list TxIn) (st : State) :
  Add_inputs (i :: l) st = Add_inputs l (txin_step st i).
Proof. reflexivity. Qed.

Lemma Add_outputs_app (mtx : Tx) (l1 l2 : list TxOut) (i : nat) (st : State) :
  Add_outputs mtx i (l1 ++ l2) st
  = match Add_outputs mtx i l1 st with
    | Some st' => Add_outputs mtx (i + length l1) l2 st'
    | None => None
    end.
Proof.
  revert i st; induction l1 as [|o l1 IH]; intros i st; simpl.
  - f_equal. lia.
  - destruct (txout_step mtx st i o) as [st'|]; [|reflexivity].
    rewrite IH. replace (S i + length l1)%nat with (i + S (length l1))%nat
      by lia. reflexivity.
Qed.

(** [add] at the position of an output of the transaction does not panic. *)
Lemma add_in_range (pub : PublicKey) (mtx : Tx) (i : nat) (ttype : Z)
    (st : State) :
  (i < length (Tx_TxOut mtx))%nat ->
  is_Some (add pub mtx (uint32 i) ttype st).
Proof.
  intros Hi. unfold add.
  destruct (lookup_lt_is_Some_2 (Tx_TxOut mtx) (N.to_nat (uint32 i)))
    as [o Ho].
  - pose proof (uint32_le i). lia.
  - rewrite Ho. eauto.
Qed.

Lemma txout_step_total (mtx : Tx) (st : State) (i : nat) (o : TxOut) :
  (i < length (Tx_TxOut mtx))%nat -> is_Some (txout_step mtx st i o).
Proof.
  intros Hi. unfold txout_step.
  destruct (match_txout (TxOut_Script o)) as [[line [pub|err3]] ttype].
  - now apply add_in_range.
  - eauto.
Qed.

Lemma Add_outputs_total (mtx : Tx) (outs : list TxOut) (i : nat) (st : State) :
  (i + length outs <= length (Tx_TxOut mtx))%nat ->
  is_Some (Add_outputs mtx i outs st).
Proof.
  revert i st; induction outs as [|o outs IH]; intros i st Hlen; simpl.
  - eauto.
  - simpl in Hlen.
    destruct (txout_step_total mtx st i o) as [st' ->]; [lia |].
    apply IH. lia.
Qed.

(** [Add] runs to its [return nil]. *)
Lemma Add_returns_nil (mtx : Tx) (st : State) :
  exists st', Add mtx st = Some (st', None).
Proof.
  unfold Add.
  destruct (Add_outputs_total mtx (Tx_TxOut mtx) 0
              (Add_inputs (Tx_TxIn mtx) st)) as [st' ->]; [simpl; lia |].
  now exists st'.
Qed.

(** Each step only appends to the log. *)
Lemma remove_logs (pub : PublicKey) (hash : bytes) (index : N) (st : State) :
  logs (fst (remove pub hash index st)) = logs st.
Proof.
  unfold remove.
  now destruct (range_find _ _ _).
Qed.

Lemma txin_step_logs (st : State) (i : TxIn) :
  exists l, logs (txin_step st i) = logs st ++ l.
Proof.
  unfold txin_step.
  destruct (is_coinbase i); [simpl; eauto |].
  destruct (parseScriptsigH _) as [buf|]; [|simpl; eauto].
  destruct (parseScriptsigT _ _) as [s|]; [|simpl; eauto].
  destruct (checkTxin s) as [pub|]; [|simpl; eauto].
  pose proof (remove_logs pub (TxIn_Hash i) (TxIn_Index i) st) as Hl.
  destruct (remove pub _ _ st) as [st' [err|]]; simpl in *; rewrite Hl.
  - eauto.
  - exists []. now rewrite app_nil_r.
Qed.

Lemma Add_inputs_logs (ins : list TxIn) (st : State) :
  exists l, logs (Add_inputs ins st) = logs st ++ l.
Proof.
  revert st; induction ins as [|i ins IH]; intros st.
  - exists []. simpl. now rewrite app_nil_r.
  - rewrite Add_inputs_cons.
    destruct (IH (txin_step st i)) as [l2 ->].
    destruct (txin_step_logs st i) as [l1 ->].
    exists (l1 ++ l2). now rewrite app_assoc.
Qed.

Lemma txout_step_logs (mtx : Tx) (st st' : State) (i : nat) (o : TxOut) :
  txout_step mtx st i o = Some st' -> exists l, logs st' = logs st ++ l.
Proof.
  unfold txout_step.
  destruct (match_txout (TxOut_Script o)) as [[line [pub|err3]] ttype].
  - intros H. apply add_Some in H as (o' & _ & ->). simpl. eauto.
  - intros [= <-]. simpl. rewrite <- app_assoc. eauto.
Qed.

Lemma Add_outputs_logs (mtx : Tx) (outs : list TxOut) (i : nat)
    (st st' : State) :
  Add_outputs mtx i outs st = Some st' -> exists l, logs st' = logs st ++ l.
Proof.
  revert i st; induction outs as [|o outs IH]; intros i st; simpl.
  - intros [= <-]. exists []. now rewrite app_nil_r.
  - destruct (txout_step mtx st i o) as [st1|] eqn:E; [|easy].
    intros H. apply IH in H as [l2 ->].
    apply txout_step_logs in E as [l1 ->].
    exists (l1 ++ l2). now rewrite app_assoc.
Qed.

(** C4.  For every decoded transaction and every state, [Add] runs to
    its end and returns [nil]: no failure of an input or an output makes
    it return an error or stop.  What it leaves is a state, that is a
    registry and a log, and the log it leaves is the log it found with
    lines appended. *)
Theorem Add_never_fails (mtx : Tx) (st : State) :
  exists st' l, Add mtx st = Some (st', None) /\ logs st' = logs st ++ l.
Proof.
  unfold Add.
  destruct (Add_outputs_total mtx (Tx_TxOut mtx) 0
              (Add_inputs (Tx_TxIn mtx) st)) as [st' E]; [simpl; lia |].
  rewrite E.
  destruct (Add_outputs_logs _ _ _ _ _ E) as [l2 E2].
  destruct (Add_inputs_logs (Tx_TxIn mtx) st) as [l1 E1].
  exists st', (l1 ++ l2). split; [reflexivity |].
  now rewrite E2, E1, app_assoc.
Qed.

End Processor.

(** ** The log does not steer the processor *)

Section Frame.
Context `{C : Collaborators}.

Lemma prepend_logs_log_Println (l : list (list string)) (args : list string)
    (st : State) :
  log_Println args (prepend_logs l st) = prepend_logs l (log_Println args st).
Proof. unfold log_Println, prepend_logs. simpl. now rewrite app_assoc. Qed.

Lemma remove_prepend (l : list (list string)) (pub : PublicKey)
    (hash : bytes) (index : N) (st : State) :
  remove pub hash index (prepend_logs l st)
  = (prepend_logs l (fst (remove pub hash index st)),
     snd (remove pub hash index st)).
Proof.
  unfold remove. change (coins_at (prepend_logs l st)) with (coins_at st).
  now destruct (range_find _ _ _).
Qed.

Lemma txin_step_prepend (l : list (list string)) (st : State) (i : TxIn) :
  txin_step (prepend_logs l st) i = prepend_logs l (txin_step st i).
Proof.
  unfold txin_step.
  destruct (is_coinbase i); [apply prepend_logs_log_Println |].
  destruct (parseScriptsigH _) as [buf|]; [|apply prepend_logs_log_Println].
  destruct (parseScriptsigT _ _) as [s|]; [|apply prepend_logs_log_Println].
  destruct (checkTxin s) as [pub|]; [|apply prepend_logs_log_Println].
  rewrite remove_prepend.
  destruct (remove pub _ _ st) as [st' [err|]]; simpl;
    [apply prepend_logs_log_Println | reflexivity].
Qed.

Lemma Add_inputs_prepend (l : list (list string)) (ins : list TxIn)
    (st : State) :
  Add_inputs ins (prepend_logs l st) = prepend_logs l (Add_inputs ins st).
Proof.
  revert st; induction ins as [|i ins IH]; intros st; [reflexivity |].
  now rewrite !Add_inputs_cons, txin_step_prepend, IH.
Qed.

Lemma add_prepend (l : list (list string)) (pub : PublicKey) (tx : Tx)
    (index : N) (ttype : Z) (st : State) :
  add pub tx index ttype (prepend_logs l st)
  = prepend_logs l <$> add pub tx index ttype st.
Proof. unfold add. now destruct (Tx_TxOut tx !! N.to_nat index). Qed.

Lemma txout_step_prepend (l : list (list string)) (mtx : Tx) (st : State)
    (i : nat) (o : TxOut) :
  txout_step mtx (prepend_logs l st) i o
  = prepend_logs l <$> txout_step mtx st i o.
Proof.
  unfold txout_step.
  destruct (match_txout (TxOut_Script o)) as [[line [pub|err3]] ttype].
  - now rewrite prepend_logs_log_Println, add_prepend.
  - simpl. now rewrite !prepend_logs_log_Println.
Qed.

Lemma Add_outputs_prepend (l : list (list string)) (mtx : Tx)
    (outs : list TxOut) (i : nat) (st : State) :
  Add_outputs mtx i outs (prepend_logs l st)
  = prepend_logs l <$> Add_outputs mtx i outs st.
Proof.
  revert i st; induction outs as [|o outs IH]; intros i st; simpl;
    [reflexivity |].
  rewrite txout_step_prepend.
  destruct (txout_step mtx st i o) as [st'|]; simpl; [apply IH | reflexivity].
Qed.

(** A turn of the first loop that only writes [line] is a skipped turn. *)
Lemma turn_only_logs_intro (mtx : Tx) (pre post : list TxIn) (i : TxIn)
    (line : list string) :
  Tx_TxIn mtx = pre ++ i :: post ->
  (forall st, txin_step st i = log_Println line st) ->
  turn_only_logs mtx pre post line.
Proof.
  intros Hin Hstep. intros st0 st1.
  destruct (Add_outputs_total mtx (Tx_TxOut mtx) 0 (Add_inputs post st1))
    as [st' E]; [simpl; lia |].
  destruct (Add_outputs_logs _ _ _ _ _ E) as [lo Eo].
  destruct (Add_inputs_logs post st1) as [li Ei].
  exists st', (li ++ lo). split; [exact E |]. split.
  { now rewrite Eo, Ei, app_assoc. }
  unfold Add. rewrite Hin, Add_inputs_app, Add_inputs_cons. fold st1.
  rewrite Hstep.
  set (bare := {| coins := coins st1; logs := [] |}).
  assert (H1 : st1 = prepend_logs (logs st1) bare).
  { unfold prepend_logs, bare. simpl. rewrite app_nil_r. now destruct st1. }
  assert (H2 : log_Println line st1 = prepend_logs (logs st1 ++ [line]) bare).
  { unfold prepend_logs, log_Println, bare. simpl. now rewrite app_nil_r. }
  rewrite H1 in E at 1. rewrite Add_inputs_prepend, Add_outputs_prepend in E.
  rewrite H2, Add_inputs_prepend, Add_outputs_prepend.
  destruct (Add_outputs mtx 0 (Tx_TxOut mtx) (Add_inputs post bare))
    as [sb|]; [|discriminate].
  simpl in *. injection E as <-. simpl in Eo. rewrite Ei in Eo.
  rewrite <- app_assoc in Eo. apply app_inv_head in Eo.
  unfold prepend_logs. simpl. rewrite Eo, <- app_assoc. reflexivity.
Qed.

End Frame.

(** ** The inputs *)

Section Inputs.
Context `{C : Collaborators}.

(** C2, amended.  An input whose referenced hash is 32 zero bytes and
    whose index is 0xFFFFFFFF is skipped: its turn leaves the registry as
    it is, stops no later turn and makes [Add] return no error.  It is
    not silent: the turn writes the one log line "coinbase". *)
Theorem coinbase_input_logged (mtx : Tx) (pre post : list TxIn) (i : TxIn) :
  TxIn_Hash i = make_bytes 32 -> TxIn_Index i = 0xffffffff ->
  Tx_TxIn mtx = pre ++ i :: post ->
  (forall st,
     txin_step st i
     = {| coins := coins st; logs := logs st ++ [["coinbase"]] |}) /\
  turn_only_logs mtx pre post ["coinbase"].
Proof.
  intros Hh Hi Hin.
  assert (Hcb : is_coinbase i = true) by now apply is_coinbase_true.
  assert (Hstep : forall st, txin_step st i = log_Println ["coinbase"] st).
  { intros st. unfold txin_step. now rewrite Hcb. }
  split; [exact Hstep |].
  now apply (turn_only_logs_intro mtx pre post i).
Qed.

(** C7.  An input whose script decodes as a whole header and leaves no
    byte gets the outcome "old type of scriptsig, ignoring" from
    [parseScriptsigH], an error that is neither of its two other errors.
    Its turn writes one log line (that error, or "coinbase" when the
    input is the coinbase one), leaves the registry as it is, lets [Add]
    return no error, and the later inputs and the outputs are processed
    as they are without that turn. *)
Theorem old_scriptsig_skipped (mtx : Tx) (pre post : list TxIn) (i : TxIn)
    (s : ScriptSigH.t) :
  Unpack (TxIn_Script i) = Some (s, []) ->
  Tx_TxIn mtx = pre ++ i :: post ->
  let line := if is_coinbase i then "coinbase" else errOldScriptsig in
  parseScriptsigH (TxIn_Script i) = Err errOldScriptsig /\
  errOldScriptsig <> errUnknownFormat /\
  errOldScriptsig <> errUnsupported /\
  (forall st,
     txin_step st i = {| coins := coins st; logs := logs st ++ [[line]] |}) /\
  turn_only_logs mtx pre post [line].
Proof.
  intros Hun Hin line.
  assert (Hp : parseScriptsigH (TxIn_Script i) = Err errOldScriptsig).
  { unfold parseScriptsigH. now rewrite Hun. }
  assert (Hstep : forall st, txin_step st i = log_Println [line] st).
  { intros st. unfold txin_step, line.
    destruct (is_coinbase i); [reflexivity |]. now rewrite Hp. }
  repeat split; try discriminate; auto.
  now apply (turn_only_logs_intro mtx pre post i).
Qed.

Lemma checkTxin_owned (s : ScriptSigT.t) (pub : PublicKey) :
  ScriptSigT.Postfix01 s = x01 ->
  NewPublicKey (ScriptSigT.Pubkey s) = Ok pub ->
  HasPubkey pub = true ->
  checkTxin s = Ok pub.
Proof.
  intros H1 H2 H3. unfold checkTxin. now rewrite H1, H2, H3.
Qed.

(** C6.  For an input that is not the coinbase one, whose script decodes
    as header and tail with the sighash byte 0x01, and whose key parses
    and is the wallet's, the turn calls [remove] with that key and the
    hash and index the input refers to.  Either [remove] succeeds and
    the turn leaves the state [remove] leaves, or it fails with "coin
    was not found", and the turn leaves the state as it was with that
    error logged.  In both cases the later inputs and the outputs are
    processed from there and [Add] returns [nil]. *)
Theorem owned_input_removes (i : TxIn) (buf : bytes) (s : ScriptSigT.t)
    (pub : PublicKey) :
  ~ (TxIn_Hash i = make_bytes 32 /\ TxIn_Index i = 0xffffffff) ->
  parseScriptsigH (TxIn_Script i) = Ok buf ->
  parseScriptsigT buf (TxIn_Script i) = Ok s ->
  ScriptSigT.Postfix01 s = x01 ->
  NewPublicKey (ScriptSigT.Pubkey s) = Ok pub ->
  HasPubkey pub = true ->
  (forall st,
     (exists st',
        remove pub (TxIn_Hash i) (TxIn_Index i) st = (st', None) /\
        txin_step st i = st')
     \/ (remove pub (TxIn_Hash i) (TxIn_Index i) st
          = (st, Some errCoinNotFound) /\
         txin_step st i
         = {| coins := coins st;
              logs := logs st ++ [[errCoinNotFound]] |})) /\
  (forall mtx pre post st0,
     Tx_TxIn mtx = pre ++ i :: post ->
     exists st',
       Add_outputs mtx 0 (Tx_TxOut mtx)
         (Add_inputs post (txin_step (Add_inputs pre st0) i)) = Some st' /\
       Add mtx st0 = Some (st', None)).
Proof.
  intros Hncb Hh Ht H01 Hkey Hown.
  assert (Hcb : is_coinbase i = false).
  { destruct (is_coinbase i) eqn:E; [|reflexivity].
    now apply is_coinbase_true in E. }
  pose proof (checkTxin_owned s pub H01 Hkey Hown) as Hchk.
  split.
  - intros st. unfold txin_step. rewrite Hcb, Hh, Ht, Hchk.
    destruct (remove_cases pub (TxIn_Hash i) (TxIn_Index i) st)
      as [[_ Hrm] | (l1 & c & l2 & _ & _ & _ & Hrm)]; rewrite Hrm.
    + right. split; reflexivity.
    + left. eexists. split; reflexivity.
  - intros mtx pre post st0 Hin. unfold Add.
    rewrite Hin, Add_inputs_app, Add_inputs_cons.
    destruct (Add_outputs_total mtx (Tx_TxOut mtx) 0
                (Add_inputs post (txin_step (Add_inputs pre st0) i)))
      as [st' E]; [simpl; lia |].
    exists st'. now rewrite E.
Qed.

End Inputs.

(** ** The outputs *)

Section Outputs.
Context `{C : Collaborators}.

Lemma parse_p2pkh (h : bytes) :
  length h = 20%nat ->
  parse (T := Script.t) ([x76; xa9; x14] ++ h ++ [x88; xac])
  = Ok (Script.mk x76 xa9 x14 h x88 xac).
Proof.
  intros Hlen.
  do 20 (destruct h as [|? h]; [discriminate Hlen |]).
  destruct h; [reflexivity | discriminate Hlen].
Qed.

Lemma match_txout_p2pkh (h : bytes) (pub : PublicKey) :
  length h = 20%nat ->
  HasPubHash h = Some pub ->
  match_txout ([x76; xa9; x14] ++ h ++ [x88; xac])
  = (["pubkeyhash scriptsig"], Ok pub, 0%Z).
Proof.
  intros Hlen Hown. unfold match_txout. rewrite (parse_p2pkh h Hlen).
  unfold checkTxout. simpl. now rewrite Hown.
Qed.

(** C5.  Let output [i] of [mtx] (with [i] below 2^32, the range of the
    index of a coin) have the script [0x76, 0xA9, 0x14, h, 0x88, 0xAC]
    with [h] of 20 bytes, the hash of the wallet's key [pub], and the
    value [V].  Its turn stores one coin and changes nothing else of the
    registry: the list of [pub] gets the coin (key of [pub], hash of
    [mtx], index [i], value [V], type 0) appended.  Processing [mtx] runs
    the outputs before [i], that turn, then the outputs after [i], and
    returns [nil]. *)
Theorem p2pkh_output_adds_coin (mtx : Tx) (i : nat) (o : TxOut) (h : bytes)
    (pub : PublicKey) :
  Tx_TxOut mtx !! i = Some o ->
  N.of_nat i < 2 ^ 32 ->
  length h = 20%nat ->
  TxOut_Script o = [x76; xa9; x14] ++ h ++ [x88; xac] ->
  HasPubHash h = Some pub ->
  let c := {| Addr := Serialize pub; TxHash := Hash mtx;
              TxIndex := N.of_nat i; Value := TxOut_Value o;
              Ttype := 0 |} in
  let turn st :=
    {| coins := <[Serialize pub := coins_at st (Serialize pub) ++ [c]]>
                  (coins st);
       logs := logs st ++ [["pubkeyhash scriptsig"]] |} in
  (forall st, txout_step mtx st i o = Some (turn st)) /\
  (forall st0, exists st1 st',
     Add_outputs mtx 0 (take i (Tx_TxOut mtx))
       (Add_inputs (Tx_TxIn mtx) st0) = Some st1 /\
     Add_outputs mtx (S i) (drop (S i) (Tx_TxOut mtx)) (turn st1)
     = Some st' /\
     Add mtx st0 = Some (st', None)).
Proof.
  intros Ho Hi Hlen Hs Hown c turn.
  assert (Hstep : forall st, txout_step mtx st i o = Some (turn st)).
  { intros st. unfold txout_step.
    rewrite Hs, (match_txout_p2pkh h pub Hlen Hown).
    unfold add. rewrite (uint32_small i Hi), Nat2N.id, Ho. reflexivity. }
  split; [exact Hstep |]. intros st0.
  pose proof (lookup_lt_Some _ _ _ Ho) as Hlt.
  pose proof (take_drop_middle _ _ _ Ho) as Hsplit.
  assert (Hli : length (take i (Tx_TxOut mtx)) = i)
    by (rewrite length_take; lia).
  destruct (Add_outputs_total mtx (take i (Tx_TxOut mtx)) 0
              (Add_inputs (Tx_TxIn mtx) st0)) as [st1 E1]; [simpl; lia |].
  destruct (Add_outputs_total mtx (drop (S i) (Tx_TxOut mtx)) (S i)
              (turn st1)) as [st' E2].
  { rewrite length_drop. lia. }
  exists st1, st'. repeat split; auto.
  unfold Add. rewrite <- Hsplit at 1.
  rewrite Add_outputs_app, E1, Hli. simpl. now rewrite Hstep, E2.
Qed.

End Outputs.

(** The signature script of the small wallet: the header leaves the tail,
    and a wrong DER marker is refused. *)
Example sig_key1_header :
  parseScriptsigH Demo.sig_key1 = Ok ([x01; x03] ++ Demo.key1) /\
  parseScriptsigH ([x09; x31; x06; x02; x01; x7f; x02; x01; x7e; x01])
  = Err errUnsupported /\
  parseScriptsigH [x09; x30; x06] = Err errUnknownFormat.
Proof. repeat split; reflexivity. Qed.

(** A script can fit both templates; the first one is the one followed,
    and here its opcode test rejects the output. *)
Example both_templates_first_wins :
  parse (T := Script.t) Demo.both
  = Ok (Script.mk x17 x00 x00 (repeat x00 20) x00 xac) /\
  parse (T := Script2.t) Demo.both
  = Ok (Script2.mk x17 (repeat x00 23) xac) /\
  txout_step Demo.tx_pay initial 0
    {| TxOut_Value := 7; TxOut_Script := Demo.both |}
  = Some {| coins := ∅;
            logs := [["pubkeyhash scriptsig"];
                     [errUnsupported;
                      EncodeToString (Hash Demo.tx_pay)]] |}.
Proof. repeat split; reflexivity. Qed.

(** ** The invariant of the registry *)

Section Invariant.
Context `{C : Collaborators}.

Lemma coins_inv_at (st : State) (a : bytes) :
  coins_inv st -> NoDup (outpoint <$> coins_at st a).
Proof.
  intros H. unfold coins_at.
  destruct (coins st !! a) as [l|] eqn:E; simpl.
  - exact (H a l E).
  - constructor.
Qed.

Lemma coins_inv_set_coins (st : State) (a : bytes) (l : list Coin) :
  coins_inv st -> NoDup (outpoint <$> l) -> coins_inv (set_coins a l st).
Proof. intros H Hl. now apply map_Forall_insert_2. Qed.

Lemma all_coins_at (P : Coin -> Prop) (st : State) (a : bytes) :
  all_coins P st -> Forall P (coins_at st a).
Proof.
  intros H. unfold coins_at.
  destruct (coins st !! a) as [l|] eqn:E; simpl.
  - exact (H a l E).
  - constructor.
Qed.

Lemma all_coins_set_coins (P : Coin -> Prop) (st : State) (a : bytes)
    (l : list Coin) :
  all_coins P st -> Forall P l -> all_coins P (set_coins a l st).
Proof. intros H Hl. now apply map_Forall_insert_2. Qed.

Lemma all_coins_impl (P Q : Coin -> Prop) (st : State) :
  (forall c, P c -> Q c) -> all_coins P st -> all_coins Q st.
Proof.
  intros HPQ H a l Hl. eapply Forall_impl; [exact (H a l Hl) | exact HPQ].
Qed.

(** [remove] keeps both. *)
Lemma remove_inv (pub : PublicKey) (hash : bytes) (index : N) (st : State) :
  coins_inv st -> coins_inv (fst (remove pub hash index st)).
Proof.
  intros H.
  destruct (remove_cases pub hash index st)
    as [[_ ->] | (l1 & c & l2 & Hl & _ & _ & ->)]; [exact H |].
  simpl. apply coins_inv_set_coins; [exact H |].
  rewrite after_swap_Permutation.
  pose proof (coins_inv_at st (Serialize pub) H) as Hnd.
  rewrite Hl, fmap_app, fmap_cons in Hnd. rewrite fmap_app.
  apply NoDup_app in Hnd as (Hn1 & Hdis & Hn2).
  apply NoDup_cons in Hn2 as [_ Hn2].
  apply NoDup_app. repeat split; auto.
  intros x Hx Hx2. apply (Hdis x Hx). now right.
Qed.

Lemma remove_all_coins (P : Coin -> Prop) (pub : PublicKey) (hash : bytes)
    (index : N) (st : State) :
  all_coins P st -> all_coins P (fst (remove pub hash index st)).
Proof.
  intros H.
  destruct (remove_cases pub hash index st)
    as [[_ ->] | (l1 & c & l2 & Hl & _ & _ & ->)]; [exact H |].
  simpl. apply all_coins_set_coins; [exact H |].
  rewrite after_swap_Permutation.
  pose proof (all_coins_at P st (Serialize pub) H) as Hall.
  rewrite Hl in Hall. apply Forall_app in Hall as [H1 H2].
  apply Forall_app. split; [exact H1 | now inversion H2].
Qed.

(** [add] keeps the invariant when the pair is not under the key yet. *)
Lemma add_inv (pub : PublicKey) (tx : Tx) (index : N) (ttype : Z)
    (st st' : State) :
  coins_inv st ->
  Forall (fun c => outpoint c <> (Hash tx, index))
         (coins_at st (Serialize pub)) ->
  add pub tx index ttype st = Some st' ->
  coins_inv st'.
Proof.
  intros H Hfresh Hadd. apply add_Some in Hadd as (o & _ & ->).
  apply coins_inv_set_coins; [exact H |].
  rewrite fmap_app. apply NoDup_app. repeat split.
  - now apply coins_inv_at.
  - intros x Hx Hx'. apply list_elem_of_fmap in Hx as (c & -> & Hc).
    rewrite Forall_forall in Hfresh.
    apply list_elem_of_singleton in Hx'. now apply (Hfresh c Hc).
  - apply NoDup_singleton.
Qed.

Lemma add_all_coins (P : Coin -> Prop) (pub : PublicKey) (tx : Tx)
    (index : N) (ttype : Z) (st st' : State) :
  all_coins P st ->
  (forall c, TxHash c = Hash tx -> TxIndex c = index -> P c) ->
  add pub tx index ttype st = Some st' ->
  all_coins P st'.
Proof.
  intros H Hnew Hadd. apply add_Some in Hadd as (o & _ & ->).
  apply all_coins_set_coins; [exact H |].
  apply Forall_app. split; [now apply all_coins_at |].
  constructor; [|constructor]. now apply Hnew.
Qed.

(** The first loop of [Add] only removes. *)
Lemma txin_step_inv (st : State) (i : TxIn) :
  coins_inv st -> coins_inv (txin_step st i).
Proof.
  intros H. unfold txin_step.
  destruct (is_coinbase i); [exact H |].
  destruct (parseScriptsigH _) as [buf|]; [|exact H].
  destruct (parseScriptsigT _ _) as [s|]; [|exact H].
  destruct (checkTxin s) as [pub|]; [|exact H].
  pose proof (remove_inv pub (TxIn_Hash i) (TxIn_Index i) st H) as H'.
  now destruct (remove pub _ _ st) as [st' [err|]].
Qed.

Lemma txin_step_all_coins (P : Coin -> Prop) (st : State) (i : TxIn) :
  all_coins P st -> all_coins P (txin_step st i).
Proof.
  intros H. unfold txin_step.
  destruct (is_coinbase i); [exact H |].
  destruct (parseScriptsigH _) as [buf|]; [|exact H].
  destruct (parseScriptsigT _ _) as [s|]; [|exact H].
  destruct (checkTxin s) as [pub|]; [|exact H].
  pose proof (remove_all_coins P pub (TxIn_Hash i) (TxIn_Index i) st H)
    as H'.
  now destruct (remove pub _ _ st) as [st' [err|]].
Qed.

Lemma Add_inputs_inv (P : Coin -> Prop) (ins : list TxIn) (st : State) :
  coins_inv st -> all_coins P st ->
  coins_inv (Add_inputs ins st) /\ all_coins P (Add_inputs ins st).
Proof.
  revert st; induction ins as [|i ins IH]; intros st H HP; [now split |].
  rewrite Add_inputs_cons. apply IH.
  - now apply txin_step_inv.
  - now apply txin_step_all_coins.
Qed.

(** The second loop of [Add] stores the hash of [mtx] with rising
    indices. *)
Lemma txout_step_inv (mtx : Tx) (st st' : State) (i : nat) (o : TxOut) :
  N.of_nat i < 2 ^ 32 ->
  coins_inv st -> idx_below (Hash mtx) (N.of_nat i) st ->
  txout_step mtx st i o = Some st' ->
  coins_inv st' /\ idx_below (Hash mtx) (N.of_nat (S i)) st'.
Proof.
  intros Hi H Hb. unfold txout_step.
  assert (Hb' : idx_below (Hash mtx) (N.of_nat (S i)) st).
  { eapply all_coins_impl; [|exact Hb]. simpl. intros c Hc Hh.
    specialize (Hc Hh). lia. }
  destruct (match_txout (TxOut_Script o)) as [[line [pub|err3]] ttype].
  - rewrite (uint32_small i Hi). intros Hadd. split.
    + eapply add_inv; [| |exact Hadd]; [exact H |].
      pose proof (all_coins_at _ _ (Serialize pub) Hb) as Hall.
      eapply Forall_impl; [exact Hall |]. simpl.
      intros c Hc [= Hh Hidx]. specialize (Hc Hh). lia.
    + eapply add_all_coins; [| |exact Hadd]; [exact Hb' |].
      simpl. intros c _ -> _. lia.
  - intros [= <-]. split; [exact H | exact Hb'].
Qed.

Lemma Add_outputs_inv (mtx : Tx) (outs : list TxOut) (i : nat)
    (st st' : State) :
  N.of_nat (i + length outs) <= 2 ^ 32 ->
  coins_inv st -> idx_below (Hash mtx) (N.of_nat i) st ->
  Add_outputs mtx i outs st = Some st' ->
  coins_inv st'.
Proof.
  revert i st; induction outs as [|o outs IH]; intros i st Hlen H Hb; simpl.
  - now intros [= <-].
  - destruct (txout_step mtx st i o) as [st1|] eqn:E; [|easy].
    simpl in Hlen.
    apply txout_step_inv in E as [H1 Hb1]; auto; [|lia].
    apply IH; auto. lia.
Qed.

Lemma Add_inv (mtx : Tx) (st st' : State) (err : option error) :
  coins_inv st ->
  hash_unused (Hash mtx) st ->
  N.of_nat (length (Tx_TxOut mtx)) <= 2 ^ 32 ->
  Add mtx st = Some (st', err) ->
  coins_inv st'.
Proof.
  intros H Hu Hlen. unfold Add.
  destruct (Add_outputs mtx 0 (Tx_TxOut mtx) (Add_inputs (Tx_TxIn mtx) st))
    as [st2|] eqn:E; [|easy].
  intros [= <- _].
  destruct (Add_inputs_inv _ (Tx_TxIn mtx) st H Hu) as [H1 Hu1].
  eapply Add_outputs_inv; [| |  |exact E]; auto.
  eapply all_coins_impl; [|exact Hu1]. simpl. intros c Hc Hh. now apply Hc in Hh.
Qed.

Lemma run_op_inv (o : op) (st st' : State) :
  coins_inv st -> fresh_op o st -> run_op o st = Some st' -> coins_inv st'.
Proof.
  intros H Hfresh Hrun. destruct o as [pub tx index ttype|pub hash index|mtx];
    simpl in *.
  - eapply add_inv; eauto.
  - injection Hrun as <-. now apply remove_inv.
  - destruct Hfresh as [Hu Hlen].
    destruct (Add mtx st) as [[st2 err]|] eqn:E; [|discriminate].
    simpl in Hrun. injection Hrun as <-. eapply Add_inv; eauto.
Qed.

(** C1, amended.  In every state reached from the loaded package through
    operations that bring no pair the address already holds (any [remove];
    an [add] whose pair is not under the key yet; the processing of a
    transaction whose hash no stored coin carries and which has at most
    2^32 outputs), no two coins of one address have the same
    (hash, index) pair, and every such operation keeps it so.  [add] does
    not look for the pair before it appends, so nothing is claimed of an
    [add], or of a transaction, that brings a pair the address already
    holds. *)
Theorem fresh_reachable_inv (st : State) :
  fresh_reachable st ->
  coins_inv st /\
  (forall o st', fresh_op o st -> run_op o st = Some st' -> coins_inv st').
Proof.
  intros Hreach.
  assert (H : coins_inv st).
  { induction Hreach as [|o st st' _ IH Hfresh Hrun].
    - apply map_Forall_empty.
    - exact (run_op_inv o st st' IH Hfresh Hrun). }
  split; [exact H |]. intros o st' Hfresh Hrun.
  exact (run_op_inv o st st' H Hfresh Hrun).
Qed.

End Invariant.

(** ** The theorems at work on the small wallet *)

Section Instances.
Import Demo.

(** C1 as stated fails: processing [tx_pay] twice, from the empty
    registry, leaves the same (hash, index) pair twice under [key1]. *)
Lemma processing_twice_duplicates :
  run_ops [OpTx tx_pay; OpTx tx_pay] initial = Some st_twice /\
  reachable st_twice /\
  coins_at st_twice key1 = [coin1; coin1] /\
  ~ coins_inv st_twice.
Proof.
  assert (Hrun : run_ops [OpTx tx_pay; OpTx tx_pay] initial = Some st_twice)
    by (vm_compute; reflexivity).
  split; [exact Hrun |]. split; [|split].
  - now exists [OpTx tx_pay; OpTx tx_pay].
  - reflexivity.
  - intros H.
    assert (Hl : coins st_twice !! key1 = Some [coin1; coin1])
      by (vm_compute; reflexivity).
    specialize (H key1 _ Hl). simpl in H.
    apply NoDup_cons in H as [Hnin _]. apply Hnin. now left.
Qed.

Lemma fresh_reachable_inv_witness :
  fresh_reachable st_once /\
  coins_inv st_once /\
  (forall o st',
     fresh_op o st_once -> run_op o st_once = Some st' -> coins_inv st').
Proof.
  assert (Hf : fresh_op (OpTx tx_pay) initial).
  { split; [apply map_Forall_empty | vm_compute; discriminate]. }
  assert (Hr : run_op (OpTx tx_pay) initial = Some st_once)
    by (vm_compute; reflexivity).
  assert (Hreach : fresh_reachable st_once)
    by exact (fresh_step (OpTx tx_pay) initial st_once fresh_initial Hf Hr).
  split; [exact Hreach |].
  exact (fresh_reachable_inv (C := wallet) st_once Hreach).
Defined.

(** C2 as stated fails: the coinbase input is logged. *)
Lemma coinbase_input_writes_a_line :
  TxIn_Hash coinbase_in = repeat x00 32 /\
  TxIn_Index coinbase_in = 0xffffffff /\
  Add tx_cb initial
  = Some ({| coins := ∅; logs := [["coinbase"]] |}, None) /\
  logs (txin_step initial coinbase_in) <> logs initial.
Proof. repeat split; try reflexivity. discriminate. Qed.

Lemma coinbase_input_logged_witness :
  TxIn_Hash coinbase_in = make_bytes 32 /\
  TxIn_Index coinbase_in = 0xffffffff /\
  Tx_TxIn tx_cb = [] ++ coinbase_in :: [] /\
  (forall st,
     txin_step st coinbase_in
     = {| coins := coins st; logs := logs st ++ [["coinbase"]] |}) /\
  turn_only_logs tx_cb [] [] ["coinbase"].
Proof.
  assert (Hh : TxIn_Hash coinbase_in = make_bytes 32) by reflexivity.
  assert (Hi : TxIn_Index coinbase_in = 0xffffffff) by reflexivity.
  assert (Hin : Tx_TxIn tx_cb = [] ++ coinbase_in :: []) by reflexivity.
  repeat (split; [assumption |]).
  exact (coinbase_input_logged (C := wallet) tx_cb [] [] coinbase_in
           Hh Hi Hin).
Defined.

Lemma remove_absent_witness :
  Forall (fun c => outpoint c <> (repeat xc1 32, 1))
         (coins_at st_paid (@Serialize wallet key1)) /\
  remove key1 (repeat xc1 32) 1 st_paid = (st_paid, Some errCoinNotFound).
Proof.
  assert (H : Forall (fun c => outpoint c <> (repeat xc1 32, 1))
                (coins_at st_paid (@Serialize wallet key1))).
  { change (coins_at st_paid (@Serialize wallet key1)) with [coin1].
    repeat constructor. discriminate. }
  split; [exact H |].
  exact (remove_absent (C := wallet) key1 (repeat xc1 32) 1 st_paid H).
Defined.

Lemma p2pkh_output_adds_coin_witness :
  Tx_TxOut tx_pay !! 0%nat
  = Some {| TxOut_Value := 50; TxOut_Script := p2pkh |} /\
  N.of_nat 0 < 2 ^ 32 /\
  length hash1 = 20%nat /\
  p2pkh = [x76; xa9; x14] ++ hash1 ++ [x88; xac] /\
  @HasPubHash wallet hash1 = Some key1 /\
  txout_step tx_pay initial 0
    {| TxOut_Value := 50; TxOut_Script := p2pkh |}
  = Some {| coins := {[ key1 := [coin1] ]};
            logs := [["pubkeyhash scriptsig"]] |} /\
  Add tx_pay initial = Some (st_once, None).
Proof.
  assert (Ho : Tx_TxOut tx_pay !! 0%nat
               = Some {| TxOut_Value := 50; TxOut_Script := p2pkh |})
    by reflexivity.
  assert (Hi : N.of_nat 0 < 2 ^ 32) by reflexivity.
  assert (Hlen : length hash1 = 20%nat) by reflexivity.
  assert (Hs : p2pkh = [x76; xa9; x14] ++ hash1 ++ [x88; xac])
    by reflexivity.
  assert (Hown : @HasPubHash wallet hash1 = Some key1) by reflexivity.
  destruct (p2pkh_output_adds_coin (C := wallet) tx_pay 0
              {| TxOut_Value := 50; TxOut_Script := p2pkh |} hash1 key1
              Ho Hi Hlen Hs Hown) as [Hstep Hadd].
  repeat (split; [assumption |]). split.
  - rewrite Hstep. reflexivity.
  - destruct (Hadd initial) as (st1 & st' & E1 & E2 & ->).
    vm_compute in E1. injection E1 as <-.
    vm_compute in E2. injection E2 as <-. reflexivity.
Defined.

Lemma owned_input_removes_witness :
  ~ (TxIn_Hash spend_in = make_bytes 32
     /\ TxIn_Index spend_in = 0xffffffff) /\
  parseScriptsigH (TxIn_Script spend_in) = Ok ([x01; x03] ++ key1) /\
  parseScriptsigT ([x01; x03] ++ key1) (TxIn_Script spend_in)
  = Ok (ScriptSigT.mk x01 x03 key1) /\
  ScriptSigT.Postfix01 (ScriptSigT.mk x01 x03 key1) = x01 /\
  @NewPublicKey wallet key1 = Ok key1 /\
  @HasPubkey wallet key1 = true /\
  txin_step st_paid spend_in = {| coins := {[ key1 := [] ]}; logs := [] |} /\
  txin_step initial spend_in
  = {| coins := ∅; logs := [[errCoinNotFound]] |}.
Proof.
  assert (Hn : ~ (TxIn_Hash spend_in = make_bytes 32
                  /\ TxIn_Index spend_in = 0xffffffff))
    by (intros [_ H]; discriminate H).
  assert (Hh : parseScriptsigH (TxIn_Script spend_in)
               = Ok ([x01; x03] ++ key1)) by reflexivity.
  assert (Ht : parseScriptsigT ([x01; x03] ++ key1) (TxIn_Script spend_in)
               = Ok (ScriptSigT.mk x01 x03 key1)) by reflexivity.
  assert (H01 : ScriptSigT.Postfix01 (ScriptSigT.mk x01 x03 key1) = x01)
    by reflexivity.
  assert (Hk : @NewPublicKey wallet key1 = Ok key1) by reflexivity.
  assert (Hown : @HasPubkey wallet key1 = true) by reflexivity.
  destruct (owned_input_removes (C := wallet) spend_in ([x01; x03] ++ key1)
              (ScriptSigT.mk x01 x03 key1) key1 Hn Hh Ht H01 Hk Hown)
    as [Hturn _].
  repeat (split; [assumption |]). split.
  - destruct (Hturn st_paid) as [(st' & Hrm & ->) | [Hrm _]].
    + vm_compute in Hrm. now injection Hrm as <-.
    + vm_compute in Hrm. discriminate Hrm.
  - destruct (Hturn initial) as [(st' & Hrm & _) | [_ ->]].
    + vm_compute in Hrm. discriminate Hrm.
    + reflexivity.
Defined.

Lemma old_scriptsig_skipped_witness :
  Unpack (TxIn_Script old_in)
  = Some (ScriptSigH.mk x09 x30 x06 x02 x01 [x7f] x02 x01 [x7e], []) /\
  Tx_TxIn tx_old = [] ++ old_in :: [] /\
  parseScriptsigH (TxIn_Script old_in) = Err errOldScriptsig /\
  (forall st,
     txin_step st old_in
     = {| coins := coins st; logs := logs st ++ [[errOldScriptsig]] |}) /\
  turn_only_logs tx_old [] [] [errOldScriptsig].
Proof.
  assert (Hu : Unpack (TxIn_Script old_in)
               = Some (ScriptSigH.mk x09 x30 x06 x02 x01 [x7f] x02 x01 [x7e],
                       [])) by reflexivity.
  assert (Hin : Tx_TxIn tx_old = [] ++ old_in :: []) by reflexivity.
  destruct (old_scriptsig_skipped (C := wallet) tx_old [] [] old_in _ Hu Hin)
    as (Hp & _ & _ & Hstep & Hturn).
  repeat (split; [assumption |]). exact Hturn.
Defined.

Lemma add_then_remove_count_witness :
  add key1 tx_pay 0 0 initial = Some st_paid /\
  exists st2,
    remove key1 (Hash tx_pay) 0 st_paid = (st2, None) /\
    length (coins_at st2 (@Serialize wallet key1))
    = length (coins_at initial (@Serialize wallet key1)).
Proof.
  split; [reflexivity |].
  exact (add_then_remove_count (C := wallet) key1 tx_pay 0 0 initial st_paid eq_refl).
Defined.

Lemma remove_first_match_witness :
  Exists (fun c => outpoint c = (repeat xc1 32, 0))
         (coins_at st_twice (@Serialize wallet key1)) /\
  remove key1 (repeat xc1 32) 0 st_twice
  = ({| coins := {[ key1 := [coin1] ]}; logs := logs st_twice |}, None).
Proof.
  assert (H : Exists (fun c => outpoint c = (repeat xc1 32, 0))
                (coins_at st_twice (@Serialize wallet key1))).
  { change (coins_at st_twice (@Serialize wallet key1))
      with [coin1; coin1].
    constructor. reflexivity. }
  split; [exact H |].
  destruct (remove_first_match (C := wallet) key1 (repeat xc1 32) 0 st_twice H)
    as (l1 & c & l2 & st' & _ & _ & _ & Hrm & _).
  rewrite Hrm. vm_compute in Hrm. injection Hrm as <-. reflexivity.
Defined.

End Instances.

(** * Further properties of package [tx] *)

(** ** What the ownership tests let through *)

Section Owned.
Context `{C : Collaborators}.

Lemma checkTxin_Ok (s : ScriptSigT.t) (pub : PublicKey) :
  checkTxin s = Ok pub ->
  ScriptSigT.Postfix01 s = x01 /\
  NewPublicKey (ScriptSigT.Pubkey s) = Ok pub /\ HasPubkey pub = true.
Proof.
  unfold checkTxin.
  destruct (Byte.eqb (ScriptSigT.Postfix01 s) x01) eqn:E1; simpl; [|easy].
  destruct (NewPublicKey (ScriptSigT.Pubkey s)) as [pk|]; [|easy].
  destruct (HasPubkey pk) eqn:E2; simpl; [|easy].
  intros [= <-]. repeat split; auto. now apply Byte.byte_dec_bl.
Qed.

Lemma checkTxout_Ok (s : Script.t) (pub : PublicKey) :
  checkTxout s = Ok pub ->
  Script.Dup s = x76 /\ Script.Hash160 s = xa9 /\ Script.HashLength s = x14 /\
  Script.EqualVerify s = x88 /\ Script.CheckSig s = xac /\
  HasPubHash (Script.PubHash s) = Some pub.
Proof.
  unfold checkTxout, opDUP, opHASH160, opEQUALVERIFY, opCHECKSIG.
  destruct (Byte.eqb (Script.Dup s) x76) eqn:E1; simpl; [|easy].
  destruct (Byte.eqb (Script.Hash160 s) xa9) eqn:E2; simpl; [|easy].
  destruct (Byte.eqb (Script.HashLength s) x14) eqn:E3; simpl; [|easy].
  destruct (Byte.eqb (Script.EqualVerify s) x88) eqn:E4; simpl; [|easy].
  destruct (Byte.eqb (Script.CheckSig s) xac) eqn:E5; simpl; [|easy].
  destruct (HasPubHash (Script.PubHash s)) as [pk|]; [|easy].
  intros [= <-]. repeat split; auto using Byte.byte_dec_bl.
Qed.

Lemma checkTxout2_Ok (s : Script2.t) (pub : PublicKey) :
  checkTxout2 s = Ok pub ->
  Script2.CheckSig s = xac /\
  NewPublicKey (Script2.Pubkey s) = Ok pub /\ HasPubkey pub = true.
Proof.
  unfold checkTxout2, opCHECKSIG.
  destruct (Byte.eqb (Script2.CheckSig s) xac) eqn:E1; simpl; [|easy].
  destruct (NewPublicKey (Script2.Pubkey s)) as [pk|]; [|easy].
  destruct (HasPubkey pk) eqn:E2; simpl; [|easy].
  intros [= <-]. repeat split; auto. now apply Byte.byte_dec_bl.
Qed.

(** The [switch] of the second loop leaves a key only with type 0 or 1, and
    only a key that passed an ownership test. *)
Lemma match_txout_Ok (script : bytes) (line : list string) (pub : PublicKey)
    (ttype : Z) :
  match_txout script = (line, Ok pub, ttype) ->
  owned_key pub /\ (ttype = 0%Z \/ ttype = 1%Z).
Proof.
  unfold match_txout.
  destruct (parse (T := Script.t) script) as [s|e].
  - intros [= _ Hc <-]. apply checkTxout_Ok in Hc as (_ & _ & _ & _ & _ & Hh).
    split; [right; eauto | now left].
  - destruct (parse (T := Script2.t) script) as [s2|e2]; [|easy].
    intros [= _ Hc <-]. apply checkTxout2_Ok in Hc as (_ & _ & Hh).
    split; [now left | now right].
Qed.

Lemma coins_set_coins_ne (a b : bytes) (l : list Coin) (st : State) :
  a <> b -> coins (set_coins a l st) !! b = coins st !! b.
Proof. intros Hne. simpl. now rewrite lookup_insert_ne. Qed.

Lemma remove_other (pub : PublicKey) (hash : bytes) (index : N) (st : State)
    (a : bytes) :
  Serialize pub <> a ->
  coins (fst (remove pub hash index st)) !! a = coins st !! a.
Proof.
  intros Hne. unfold remove. destruct (range_find _ _ _); [|reflexivity].
  now apply coins_set_coins_ne.
Qed.

Lemma txin_step_other (st : State) (i : TxIn) (a : bytes) :
  (forall pub, owned_key pub -> Serialize pub <> a) ->
  coins (txin_step st i) !! a = coins st !! a.
Proof.
  intros Hown. unfold txin_step.
  destruct (is_coinbase i); [reflexivity |].
  destruct (parseScriptsigH _) as [buf|]; [|reflexivity].
  destruct (parseScriptsigT _ _) as [s|]; [|reflexivity].
  destruct (checkTxin s) as [pub|] eqn:Hc; [|reflexivity].
  apply checkTxin_Ok in Hc as (_ & _ & Hh).
  pose proof (remove_other pub (TxIn_Hash i) (TxIn_Index i) st a
                (Hown pub (or_introl Hh))) as Hrm.
  now destruct (remove pub _ _ st) as [st' [err|]].
Qed.

Lemma txout_step_other (mtx : Tx) (st st' : State) (i : nat) (o : TxOut)
    (a : bytes) :
  (forall pub, owned_key pub -> Serialize pub <> a) ->
  txout_step mtx st i o = Some st' ->
  coins st' !! a = coins st !! a.
Proof.
  intros Hown. unfold txout_step.
  destruct (match_txout (TxOut_Script o)) as [[line [pub|err3]] ttype] eqn:Hm.
  - apply match_txout_Ok in Hm as [Hk _].
    intros Hadd. apply add_Some in Hadd as (o' & _ & ->).
    rewrite coins_set_coins_ne; [reflexivity | now apply Hown].
  - now intros [= <-].
Qed.

(** X2.  [Add] leaves every address that no owned key serializes to as it
    is in the map, present or absent: it only ever touches the lists of
    keys that passed [HasPubkey] or came out of [HasPubHash]. *)
Theorem Add_touches_owned_only (mtx : Tx) (st st' : State)
    (err : option error) (a : bytes) :
  (forall pub, owned_key pub -> Serialize pub <> a) ->
  Add mtx st = Some (st', err) ->
  coins st' !! a = coins st !! a.
Proof.
  intros Hown. unfold Add.
  destruct (Add_outputs mtx 0 (Tx_TxOut mtx) (Add_inputs (Tx_TxIn mtx) st))
    as [st2|] eqn:E; [|easy].
  intros [= <- _].
  assert (Hin : forall ins st0,
             coins (Add_inputs ins st0) !! a = coins st0 !! a).
  { induction ins as [|i ins IH]; intros st0; [reflexivity |].
    rewrite Add_inputs_cons, IH. now apply txin_step_other. }
  assert (Hout : forall outs i st0 st1,
             Add_outputs mtx i outs st0 = Some st1 ->
             coins st1 !! a = coins st0 !! a).
  { induction outs as [|o outs IH]; intros i st0 st1; simpl.
    - now intros [= <-].
    - destruct (txout_step mtx st0 i o) as [st0'|] eqn:Es; [|easy].
      intros H. rewrite (IH _ _ _ H).
      now apply (txout_step_other mtx st0 st0' i o). }
  rewrite (Hout _ _ _ _ E). apply Hin.
Qed.

End Owned.

(** ** Coins are filed under their own key *)

Section AddrInv.
Context `{C : Collaborators}.

Lemma addr_inv_at (st : State) (a : bytes) :
  addr_inv st -> Forall (fun c => Addr c = a) (coins_at st a).
Proof.
  intros H. unfold coins_at.
  destruct (coins st !! a) as [l|] eqn:E; simpl; [exact (H a l E) | constructor].
Qed.

Lemma addr_inv_set_coins (st : State) (a : bytes) (l : list Coin) :
  addr_inv st -> Forall (fun c => Addr c = a) l -> addr_inv (set_coins a l st).
Proof. intros H Hl. now apply map_Forall_insert_2. Qed.

Lemma remove_addr_inv (pub : PublicKey) (hash : bytes) (index : N)
    (st : State) :
  addr_inv st -> addr_inv (fst (remove pub hash index st)).
Proof.
  intros H.
  destruct (remove_cases pub hash index st)
    as [[_ ->] | (l1 & c & l2 & Hl & _ & _ & ->)]; [exact H |].
  simpl. apply addr_inv_set_coins; [exact H |].
  rewrite after_swap_Permutation.
  pose proof (addr_inv_at st (Serialize pub) H) as Hall.
  rewrite Hl in Hall. apply Forall_app in Hall as [H1 H2].
  apply Forall_app. split; [exact H1 | now inversion H2].
Qed.

Lemma add_addr_inv (pub : PublicKey) (tx : Tx) (index : N) (ttype : Z)
    (st st' : State) :
  addr_inv st -> add pub tx index ttype st = Some st' -> addr_inv st'.
Proof.
  intros H Hadd. apply add_Some in Hadd as (o & _ & ->).
  apply addr_inv_set_coins; [exact H |].
  apply Forall_app. split; [now apply addr_inv_at |].
  now repeat constructor.
Qed.

Lemma txin_step_addr_inv (st : State) (i : TxIn) :
  addr_inv st -> addr_inv (txin_step st i).
Proof.
  intros H. unfold txin_step.
  destruct (is_coinbase i); [exact H |].
  destruct (parseScriptsigH _) as [buf|]; [|exact H].
  destruct (parseScriptsigT _ _) as [s|]; [|exact H].
  destruct (checkTxin s) as [pub|]; [|exact H].
  pose proof (remove_addr_inv pub (TxIn_Hash i) (TxIn_Index i) st H) as H'.
  now destruct (remove pub _ _ st) as [st' [err|]].
Qed.

Lemma txout_step_addr_inv (mtx : Tx) (st st' : State) (i : nat) (o : TxOut) :
  addr_inv st -> txout_step mtx st i o = Some st' -> addr_inv st'.
Proof.
  intros H. unfold txout_step.
  destruct (match_txout (TxOut_Script o)) as [[line [pub|err3]] ttype].
  - intros Hadd. eapply add_addr_inv; [|exact Hadd]. exact H.
  - now intros [= <-].
Qed.

Lemma Add_addr_inv (mtx : Tx) (st st' : State) (err : option error) :
  addr_inv st -> Add mtx st = Some (st', err) -> addr_inv st'.
Proof.
  intros H. unfold Add.
  destruct (Add_outputs mtx 0 (Tx_TxOut mtx) (Add_inputs (Tx_TxIn mtx) st))
    as [st2|] eqn:E; [|easy].
  intros [= <- _].
  assert (Hin : forall ins st0, addr_inv st0 -> addr_inv (Add_inputs ins st0)).
  { induction ins as [|i ins IH]; intros st0 H0; [exact H0 |].
    rewrite Add_inputs_cons. apply IH. now apply txin_step_addr_inv. }
  assert (Hout : forall outs i st0 st1,
             addr_inv st0 -> Add_outputs mtx i outs st0 = Some st1 ->
             addr_inv st1).
  { induction outs as [|o outs IH]; intros i st0 st1 H0; simpl.
    - now intros [= <-].
    - destruct (txout_step mtx st0 i o) as [st0'|] eqn:Es; [|easy].
      apply IH. now apply (txout_step_addr_inv mtx st0 st0' i o). }
  eapply Hout; [|exact E]. now apply Hin.
Qed.

Lemma run_ops_addr_inv (os : list op) (st st' : State) :
  addr_inv st -> run_ops os st = Some st' -> addr_inv st'.
Proof.
  revert st; induction os as [|o os IH]; intros st H; simpl.
  - now intros [= <-].
  - destruct (run_op o st) as [st1|] eqn:E; [|easy].
    apply IH. destruct o as [pub tx index ttype|pub hash index|mtx];
      simpl in E.
    + eapply add_addr_inv; eauto.
    + injection E as <-. now apply remove_addr_inv.
    + destruct (Add mtx st) as [[st2 err]|] eqn:Ea; [|discriminate].
      simpl in E. injection E as <-. eapply Add_addr_inv; eauto.
Qed.

(** X1.  In every state reached from the loaded package by calls of [add],
    [remove] and [Add], whatever they bring, each coin is stored under the
    key its own [Addr] names: the map key and the coin never disagree. *)
Theorem reachable_addr_inv (st : State) : reachable st -> addr_inv st.
Proof.
  intros [os Hrun]. eapply run_ops_addr_inv; [|exact Hrun].
  apply map_Forall_empty.
Qed.

End AddrInv.

(** ** Inputs only take coins out, outputs only append *)

Section Shape.
Context `{C : Collaborators}.

Lemma remove_submseteq (pub : PublicKey) (hash : bytes) (index : N)
    (st : State) (a : bytes) :
  coins_at (fst (remove pub hash index st)) a ⊆+ coins_at st a.
Proof.
  destruct (remove_cases pub hash index st)
    as [[_ ->] | (l1 & c & l2 & Hl & _ & _ & ->)]; [reflexivity |].
  simpl. destruct (decide (Serialize pub = a)) as [<- | Hne].
  - rewrite coins_at_set_coins_eq, Hl, after_swap_Permutation.
    apply submseteq_app; [reflexivity |]. now apply submseteq_cons.
  - now rewrite coins_at_set_coins_ne.
Qed.

Lemma txin_step_submseteq (st : State) (i : TxIn) (a : bytes) :
  coins_at (txin_step st i) a ⊆+ coins_at st a.
Proof.
  unfold txin_step.
  destruct (is_coinbase i); [reflexivity |].
  destruct (parseScriptsigH _) as [buf|]; [|reflexivity].
  destruct (parseScriptsigT _ _) as [s|]; [|reflexivity].
  destruct (checkTxin s) as [pub|]; [|reflexivity].
  pose proof (remove_submseteq pub (TxIn_Hash i) (TxIn_Index i) st a) as H.
  now destruct (remove pub _ _ st) as [st' [err|]].
Qed.

Lemma Add_inputs_submseteq (ins : list TxIn) (st : State) (a : bytes) :
  coins_at (Add_inputs ins st) a ⊆+ coins_at st a.
Proof.
  revert st; induction ins as [|i ins IH]; intros st; [reflexivity |].
  rewrite Add_inputs_cons. etransitivity; [apply IH |].
  apply txin_step_submseteq.
Qed.

Lemma txout_step_extends (mtx : Tx) (st st' : State) (i : nat) (o : TxOut)
    (a : bytes) :
  txout_step mtx st i o = Some st' ->
  exists added,
    coins_at st' a = coins_at st a ++ added /\
    Forall (snapshot_of mtx a) added /\
    (length added <= 1)%nat.
Proof.
  unfold txout_step.
  destruct (match_txout (TxOut_Script o)) as [[line [pub|err3]] ttype] eqn:Hm.
  - apply match_txout_Ok in Hm as [_ Ht].
    intros Hadd. apply add_Some in Hadd as (o' & Ho' & ->).
    destruct (decide (Serialize pub = a)) as [<- | Hne].
    + rewrite coins_at_set_coins_eq. eexists. split; [reflexivity |].
      split; [|simpl; lia]. constructor; [|constructor].
      split; [reflexivity |]. split; [reflexivity |]. split; [exact Ht |].
      exists o'. split; [exact Ho' | reflexivity].
    + rewrite coins_at_set_coins_ne by exact Hne.
      exists []. rewrite app_nil_r. repeat split; auto; simpl; lia.
  - intros [= <-]. exists []. rewrite app_nil_r.
    repeat split; auto; simpl; lia.
Qed.

Lemma Add_outputs_extends (mtx : Tx) (outs : list TxOut) (i : nat)
    (st st' : State) (a : bytes) :
  Add_outputs mtx i outs st = Some st' ->
  exists added,
    coins_at st' a = coins_at st a ++ added /\
    Forall (snapshot_of mtx a) added /\
    (length added <= length outs)%nat.
Proof.
  revert i st; induction outs as [|o outs IH]; intros i st; simpl.
  - intros [= <-]. exists []. rewrite app_nil_r. repeat split; auto.
  - destruct (txout_step mtx st i o) as [st1|] eqn:E; [|easy].
    intros H. apply IH in H as (l2 & -> & H2 & Hlen2).
    destruct (txout_step_extends mtx st st1 i o a E) as (l1 & -> & H1 & Hlen1).
    exists (l1 ++ l2). rewrite app_assoc. repeat split; auto.
    + now apply Forall_app.
    + rewrite length_app. lia.
Qed.

(** X3.  What [Add] does to the list of any address: the first loop leaves
    some of the coins that were there (a sub-multiset [kept], never a new
    coin), and the second loop appends to that, never taking one out.  Each
    appended coin is a snapshot of an output of [mtx]: filed under the
    address, with the hash of [mtx], type 0 or 1, and the value of the
    output its index names; there are at most as many as [mtx] has
    outputs. *)
Theorem Add_shape (mtx : Tx) (st : State) (a : bytes) :
  exists st' kept added,
    Add mtx st = Some (st', None) /\
    kept ⊆+ coins_at st a /\
    coins_at st' a = kept ++ added /\
    Forall (snapshot_of mtx a) added /\
    (length added <= length (Tx_TxOut mtx))%nat.
Proof.
  unfold Add.
  destruct (Add_outputs_total mtx (Tx_TxOut mtx) 0
              (Add_inputs (Tx_TxIn mtx) st)) as [st' E]; [simpl; lia |].
  rewrite E.
  destruct (Add_outputs_extends _ _ _ _ _ a E) as (added & Ha & Hs & Hlen).
  exists st', (coins_at (Add_inputs (Tx_TxIn mtx) st) a), added.
  repeat split; auto. apply Add_inputs_submseteq.
Qed.

End Shape.

(** ** Removing for good, and receiving then spending *)

Section Spend.
Context `{C : Collaborators}.

(** X6.  In a registry that keeps the invariant, a successful [remove]
    takes the pair out for good: no coin of the key has it afterwards, and
    a second [remove] of the same pair fails with "coin was not found" and
    changes nothing. *)
Theorem remove_twice (pub : PublicKey) (hash : bytes) (index : N)
    (st st' : State) :
  coins_inv st ->
  remove pub hash index st = (st', None) ->
  Forall (fun c => outpoint c <> (hash, index))
         (coins_at st' (Serialize pub)) /\
  remove pub hash index st' = (st', Some errCoinNotFound).
Proof.
  intros Hinv Hrm.
  assert (Hgone : Forall (fun c => outpoint c <> (hash, index))
                    (coins_at st' (Serialize pub))).
  { destruct (remove_cases pub hash index st)
      as [[_ Hno] | (l1 & c & l2 & Hl & _ & Hc & Hrm')]; [congruence |].
    rewrite Hrm in Hrm'. injection Hrm' as ->.
    rewrite coins_at_set_coins_eq, after_swap_Permutation.
    pose proof (coins_inv_at st (Serialize pub) Hinv) as Hnd.
    rewrite Hl, fmap_app, fmap_cons in Hnd.
    apply NoDup_app in Hnd as (_ & Hdis & Hn2).
    apply NoDup_cons in Hn2 as [Hnin _].
    apply Forall_forall. intros c' Hin Heq.
    apply elem_of_app in Hin as [Hin | Hin].
    - apply (Hdis (outpoint c')); [now apply list_elem_of_fmap_2 |].
      rewrite Heq, <- Hc. now left.
    - apply Hnin. rewrite Hc, <- Heq. now apply list_elem_of_fmap_2. }
  split; [exact Hgone |].
  destruct (remove_cases pub hash index st')
    as [[_ Hno] | (l1 & c & l2 & Hl & _ & Hc & _)]; [exact Hno |].
  exfalso. rewrite Hl in Hgone. apply Forall_app in Hgone as [_ Hg].
  inversion Hg as [|? ? Hne _]. now apply Hne.
Qed.

(** X7.  When the pair is not under the key yet, [add] followed by [remove]
    of the same key, hash and index gives the key back exactly the list it
    had, in its order, and succeeds.  The key stays in the map even when
    that list is empty: [remove] never deletes an entry. *)
Theorem add_then_remove_restores (pub : PublicKey) (tx : Tx) (index : N)
    (ttype : Z) (st st1 : State) :
  Forall (fun c => outpoint c <> (Hash tx, index))
         (coins_at st (Serialize pub)) ->
  add pub tx index ttype st = Some st1 ->
  remove pub (Hash tx) index st1
  = ({| coins := <[Serialize pub := coins_at st (Serialize pub)]> (coins st);
        logs := logs st |}, None).
Proof.
  intros Hfresh Hadd. apply add_Some in Hadd as (o & _ & ->).
  rewrite (remove_found pub (Hash tx) index _ (coins_at st (Serialize pub)) []
             {| Addr := Serialize pub; TxHash := Hash tx; TxIndex := index;
                Value := TxOut_Value o; Ttype := ttype |}).
  - unfold set_coins, after_swap. simpl. now rewrite insert_insert_eq.
  - now rewrite coins_at_set_coins_eq.
  - exact Hfresh.
  - reflexivity.
Qed.

End Spend.

(** ** The templates, byte by byte *)

Lemma read_bytes_app (x r : bytes) : read_bytes (length x) (x ++ r) = Some (x, r).
Proof.
  unfold read_bytes. rewrite length_app.
  assert (H : (length x <=? length x + length r)%nat = true)
    by (apply Nat.leb_le; lia).
  rewrite H. now rewrite take_app_length, drop_app_length.
Qed.

Lemma read_var_app (l : byte) (x r : bytes) :
  N.to_nat (Byte.to_N l) = length x -> read_var l (x ++ r) = Some (x, r).
Proof. intros H. unfold read_var. rewrite H. apply read_bytes_app. Qed.

Lemma read_bytes_Some (n : nat) (buf x r : bytes) :
  read_bytes n buf = Some (x, r) -> buf = x ++ r /\ length x = n.
Proof.
  unfold read_bytes. destruct (n <=? length buf)%nat eqn:E; [|easy].
  apply Nat.leb_le in E. intros [= <- <-].
  split; [now rewrite take_drop | rewrite length_take; lia].
Qed.

Section Templates.
Context `{C : Collaborators}.

(** Every 25-byte string decodes as a [Script], field by field. *)
Lemma parse_Script_25 (data : bytes) :
  length data = 25%nat ->
  exists s,
    parse (T := Script.t) data = Ok s /\
    data = [Script.Dup s; Script.Hash160 s; Script.HashLength s]
           ++ Script.PubHash s ++ [Script.EqualVerify s; Script.CheckSig s].
Proof.
  intros Hlen.
  do 25 (destruct data as [|? data]; [discriminate Hlen |]).
  destruct data; [|discriminate Hlen].
  eexists. split; reflexivity.
Qed.

(** Only a 25-byte string decodes as a [Script]. *)
Lemma parse_Script_Ok (data : bytes) (s : Script.t) :
  parse (T := Script.t) data = Ok s -> length data = 25%nat.
Proof.
  unfold parse, Unpack, Unpack_Script, rbind, read_byte, rret.
  destruct data as [|d data]; [easy |].
  destruct data as [|h data]; [easy |].
  destruct data as [|hl data]; [easy |].
  destruct (read_bytes 20 data) as [[ph rest]|] eqn:E; [|easy].
  apply read_bytes_Some in E as [-> Hph].
  destruct rest as [|ev rest]; [easy |].
  destruct rest as [|cs rest]; [easy |].
  destruct rest; simpl; [|easy].
  intros _. simpl. rewrite length_app, Hph. reflexivity.
Qed.

Lemma parse_Script2_wellformed (l cs : byte) (pk : bytes) :
  N.to_nat (Byte.to_N l) = length pk ->
  parse (T := Script2.t) ([l] ++ pk ++ [cs]) = Ok (Script2.mk l pk cs).
Proof.
  intros Hl. unfold parse, Unpack, Unpack_Script2, rbind, read_byte, rret.
  simpl. now rewrite (read_var_app l pk [cs] Hl).
Qed.

(** X4.  Let output [i] of [mtx] (with [i] below 2^32) have the script
    [L, pk, 0xAC], where the byte [L] is the length of [pk], [pk] parses
    to a key the wallet has, and [pk] is not 23 bytes long.  Its turn
    appends to the list of that key the coin (hash of [mtx], index [i],
    value of the output, type 1) and logs "pubkey scriptsig". *)
Theorem p2pk_output_adds_coin (mtx : Tx) (i : nat) (o : TxOut) (l : byte)
    (pk : bytes) (pub : PublicKey) (st : State) :
  Tx_TxOut mtx !! i = Some o ->
  N.of_nat i < 2 ^ 32 ->
  TxOut_Script o = [l] ++ pk ++ [xac] ->
  N.to_nat (Byte.to_N l) = length pk ->
  length pk <> 23%nat ->
  NewPublicKey pk = Ok pub ->
  HasPubkey pub = true ->
  txout_step mtx st i o
  = Some {| coins :=
              <[Serialize pub :=
                  coins_at st (Serialize pub)
                  ++ [ {| Addr := Serialize pub; TxHash := Hash mtx;
                          TxIndex := N.of_nat i; Value := TxOut_Value o;
                          Ttype := 1 |} ]]> (coins st);
            logs := logs st ++ [["pubkey scriptsig"]] |}.
Proof.
  intros Ho Hi Hs Hl H23 Hk Hown.
  unfold txout_step, match_txout. rewrite Hs.
  destruct (parse (T := Script.t) ([l] ++ pk ++ [xac])) as [s|e] eqn:E.
  { apply parse_Script_Ok in E. simpl in E. rewrite length_app in E.
    simpl in E. lia. }
  rewrite (parse_Script2_wellformed l xac pk Hl).
  unfold checkTxout2. simpl. rewrite Hk, Hown. simpl.
  unfold add. rewrite (uint32_small i Hi), Nat2N.id, Ho. reflexivity.
Qed.

(** X5.  An output whose script has 25 bytes is judged by the first
    template alone.  Unless the script is exactly
    [0x76, 0xA9, 0x14, h, 0x88, 0xAC] with [h] a hash the wallet knows,
    its turn stores nothing: in particular a pay-to-public-key script
    with a 23-byte key is never credited, owned or not. *)
Theorem script_of_25_bytes (mtx : Tx) (st : State) (i : nat) (o : TxOut) :
  length (TxOut_Script o) = 25%nat ->
  (forall h,
     TxOut_Script o = [x76; xa9; x14] ++ h ++ [x88; xac] ->
     HasPubHash h = None) ->
  exists st', txout_step mtx st i o = Some st' /\ coins st' = coins st.
Proof.
  intros Hlen Hno.
  destruct (parse_Script_25 _ Hlen) as (s & Hp & Hd).
  unfold txout_step, match_txout. rewrite Hp.
  destruct (checkTxout s) as [pub|e3] eqn:Hc.
  - exfalso.
    apply checkTxout_Ok in Hc as (H1 & H2 & H3 & H4 & H5 & Hh).
    rewrite H1, H2, H3, H4, H5 in Hd.
    rewrite (Hno _ Hd) in Hh. discriminate.
  - eexists. split; reflexivity.
Qed.

Lemma parseScriptsigH_wellformed (sl rsl rl sl' : byte) (r s rest : bytes) :
  N.to_nat (Byte.to_N rl) = length r ->
  N.to_nat (Byte.to_N sl') = length s ->
  rest <> [] ->
  parseScriptsigH ([sl; x30; rsl; x02; rl] ++ r ++ [x02; sl'] ++ s ++ rest)
  = Ok rest.
Proof.
  intros Hr Hs Hrest.
  unfold parseScriptsigH, Unpack, Unpack_ScriptSigH, rbind, read_byte, rret.
  simpl. rewrite (read_var_app rl r _ Hr). simpl.
  rewrite (read_var_app sl' s _ Hs).
  destruct rest; [congruence | reflexivity].
Qed.

Lemma parseScriptsigT_wellformed (p01 pl : byte) (pk data : bytes) :
  N.to_nat (Byte.to_N pl) = length pk ->
  parseScriptsigT ([p01; pl] ++ pk) data = Ok (ScriptSigT.mk p01 pl pk).
Proof.
  intros Hl.
  unfold parseScriptsigT, Unpack, Unpack_ScriptSigT, rbind, read_byte, rret.
  simpl. rewrite <- (app_nil_r pk) at 1. now rewrite (read_var_app pl pk [] Hl).
Qed.

(** X8.  Let an input that is not the coinbase one carry the script
    [SL, 0x30, RSL, 0x02, RL, r, 0x02, SL', s, 0x01, PL, pk], where [RL],
    [SL'] and [PL] are the lengths of [r], [s] and [pk], and [pk] parses to
    a key the wallet has.  Whatever the bytes [SL] and [RSL] are, its turn
    is the call of [remove] for that key and the hash and index the input
    refers to, with the error of [remove], if any, logged. *)
Theorem wellformed_scriptsig_removes (i : TxIn) (sl rsl rl sl' pl : byte)
    (r s pk : bytes) (pub : PublicKey) (st : State) :
  ~ (TxIn_Hash i = make_bytes 32 /\ TxIn_Index i = 0xffffffff) ->
  TxIn_Script i
  = [sl; x30; rsl; x02; rl] ++ r ++ [x02; sl'] ++ s ++ [x01; pl] ++ pk ->
  N.to_nat (Byte.to_N rl) = length r ->
  N.to_nat (Byte.to_N sl') = length s ->
  N.to_nat (Byte.to_N pl) = length pk ->
  NewPublicKey pk = Ok pub ->
  HasPubkey pub = true ->
  txin_step st i
  = match remove pub (TxIn_Hash i) (TxIn_Index i) st with
    | (st', Some err) => log_Println [err] st'
    | (st', None) => st'
    end.
Proof.
  intros Hncb Hscr Hr Hs Hp Hk Hown.
  assert (Hcb : is_coinbase i = false).
  { destruct (is_coinbase i) eqn:E; [|reflexivity].
    now apply is_coinbase_true in E. }
  unfold txin_step. rewrite Hcb, Hscr.
  rewrite (parseScriptsigH_wellformed sl rsl rl sl' r s ([x01; pl] ++ pk)
             Hr Hs) by discriminate.
  rewrite (parseScriptsigT_wellformed x01 pl pk _ Hp).
  now rewrite (checkTxin_owned (ScriptSigT.mk x01 pl pk) pub eq_refl Hk Hown).
Qed.

End Templates.

(** ** Which template an output script goes by *)

Section Priority.
Context `{C : Collaborators}.

Lemma parse_Script_short (data : bytes) :
  (length data < 25)%nat -> parse (T := Script.t) data = Err errShort.
Proof.
  intros Hlen.
  do 25 (destruct data as [|? data]; [reflexivity |]).
  simpl in Hlen. lia.
Qed.

Lemma parse_Script_long (data : bytes) :
  (25 < length data)%nat -> parse (T := Script.t) data = Err errLong.
Proof.
  intros Hlen.
  do 26 (destruct data as [|? data]; [simpl in Hlen; lia |]).
  reflexivity.
Qed.

Lemma parse_Script2_nil : parse (T := Script2.t) [] = Err errShort.
Proof. reflexivity. Qed.

Lemma parse_Script2_short (l : byte) (rest : bytes) :
  (length rest < N.to_nat (Byte.to_N l) + 1)%nat ->
  parse (T := Script2.t) (l :: rest) = Err errShort.
Proof.
  intros Hlen. unfold parse, Unpack, Unpack_Script2, rbind, read_byte, rret.
  unfold read_var, read_bytes.
  destruct (N.to_nat (Byte.to_N l) <=? length rest)%nat eqn:E; [|reflexivity].
  apply Nat.leb_le in E.
  destruct (drop (N.to_nat (Byte.to_N l)) rest) as [|cs tl] eqn:Ed;
    [reflexivity |].
  apply (f_equal length) in Ed. rewrite length_drop in Ed. simpl in Ed. lia.
Qed.

Lemma parse_Script2_long (l : byte) (rest : bytes) :
  (N.to_nat (Byte.to_N l) + 1 < length rest)%nat ->
  parse (T := Script2.t) (l :: rest) = Err errLong.
Proof.
  intros Hlen. unfold parse, Unpack, Unpack_Script2, rbind, read_byte, rret.
  unfold read_var, read_bytes.
  destruct (N.to_nat (Byte.to_N l) <=? length rest)%nat eqn:E;
    [|apply Nat.leb_gt in E; lia].
  destruct (drop (N.to_nat (Byte.to_N l)) rest) as [|cs tl] eqn:Ed.
  - apply (f_equal length) in Ed. rewrite length_drop in Ed. simpl in Ed. lia.
  - destruct tl as [|x tl]; [|reflexivity].
    apply (f_equal length) in Ed. rewrite length_drop in Ed. simpl in Ed. lia.
Qed.

(** [checkTxout] on the fields of a decoded [Script]. *)
Lemma checkTxout_fields (d h hl ev cs : byte) (ph : bytes) :
  checkTxout (Script.mk d h hl ph ev cs)
  = if decide (d = x76 /\ h = xa9 /\ hl = x14 /\ ev = x88 /\ cs = xac)
    then match HasPubHash ph with
         | Some pub => Ok pub
         | None => Err "not concerened address"
         end
    else Err errUnsupported.
Proof.
  assert (Hneq : forall x y : byte, x <> y -> Byte.eqb x y = false).
  { intros x y Hxy. destruct (Byte.eqb x y) eqn:E; [|reflexivity].
    now apply Byte.byte_dec_bl in E. }
  unfold checkTxout, opDUP, opHASH160, opEQUALVERIFY, opCHECKSIG.
  cbn [Script.Dup Script.Hash160 Script.HashLength Script.PubHash
       Script.EqualVerify Script.CheckSig].
  destruct (decide (d = x76 /\ h = xa9 /\ hl = x14 /\ ev = x88 /\ cs = xac))
    as [(-> & -> & -> & -> & ->) | Hn]; [reflexivity |].
  destruct (byte_eq_dec d x76) as [-> | Hd];
    [|now rewrite (Hneq _ _ Hd)].
  destruct (byte_eq_dec h xa9) as [-> | Hh];
    [|now rewrite (Hneq _ _ Hh), ?orb_true_r].
  destruct (byte_eq_dec hl x14) as [-> | Hhl];
    [|now rewrite (Hneq _ _ Hhl), ?orb_true_r].
  destruct (byte_eq_dec ev x88) as [-> | Hev];
    [|now rewrite (Hneq _ _ Hev), ?orb_true_r].
  destruct (byte_eq_dec cs xac) as [-> | Hcs];
    [|now rewrite (Hneq _ _ Hcs), ?orb_true_r].
  exfalso. now apply Hn.
Qed.

(** [checkTxout2] on the fields of a decoded [Script2]. *)
Lemma checkTxout2_fields (l cs : byte) (pk : bytes) :
  checkTxout2 (Script2.mk l pk cs)
  = if decide (cs = xac)
    then match NewPublicKey pk with
         | Err err => Err err
         | Ok pub =>
             if HasPubkey pub then Ok pub
             else Err ("not concerened address" +:+ Address pub)
         end
    else Err errUnsupported.
Proof.
  unfold checkTxout2, opCHECKSIG. cbn [Script2.CheckSig Script2.Pubkey].
  destruct (decide (cs = xac)) as [-> | Hn].
  - cbn [Byte.eqb negb]. destruct (NewPublicKey pk) as [pub|e]; [|reflexivity].
    now destruct (HasPubkey pub).
  - destruct (Byte.eqb cs xac) eqn:E; [|reflexivity].
    now apply Byte.byte_dec_bl in E.
Qed.

(** C9.  What the turn of an output does, by the bytes of its script.
    (1) A script of 25 bytes fits the first template, whatever it would be
    under the second: it is [d, h, hl, ph, ev, cs] with [ph] of 20 bytes,
    and the turn goes by pay-to-public-key-hash: with the five opcode
    bytes right and [ph] a hash the wallet knows it stores a coin of type
    0, else it stores nothing and logs why.  (2) A script of another
    length that is [l, pk, cs] with [l] the length of [pk] fits only the
    second template, and the turn goes by pay-to-public-key: with [cs] the
    CHECKSIG byte and [pk] a key the wallet has it stores a coin of type
    1, else it stores nothing and logs why.  (3) Any other script fits
    neither: the turn stores nothing and logs the two decoding errors on
    one line, the first template's then the second's, then "This txout is
    not supproted" with the hash of the transaction. *)
Theorem txout_template_priority (mtx : Tx) (st : State) (i : nat)
    (o : TxOut) :
  let script := TxOut_Script o in
  let hex := EncodeToString (Hash mtx) in
  let store (pub : PublicKey) (ttype : Z) (line : list string)
      : option State :=
    match Tx_TxOut mtx !! N.to_nat (uint32 i) with
    | Some o' =>
        Some {| coins :=
                  <[Serialize pub :=
                      coins_at st (Serialize pub)
                      ++ [ {| Addr := Serialize pub; TxHash := Hash mtx;
                              TxIndex := uint32 i; Value := TxOut_Value o';
                              Ttype := ttype |} ]]> (coins st);
                logs := logs st ++ [line] |}
    | None => None
    end in
  let skip (line : list string) (err3 : error) : option State :=
    Some {| coins := coins st; logs := logs st ++ [line; [err3; hex]] |} in
  (length script = 25%nat ->
   exists d h hl ph ev cs,
     script = [d; h; hl] ++ ph ++ [ev; cs] /\ length ph = 20%nat /\
     txout_step mtx st i o
     = if decide (d = x76 /\ h = xa9 /\ hl = x14 /\ ev = x88 /\ cs = xac)
       then match HasPubHash ph with
            | Some pub => store pub 0%Z ["pubkeyhash scriptsig"]
            | None => skip ["pubkeyhash scriptsig"] "not concerened address"
            end
       else skip ["pubkeyhash scriptsig"] errUnsupported) /\
  (length script <> 25%nat ->
   forall l pk cs,
     script = [l] ++ pk ++ [cs] -> N.to_nat (Byte.to_N l) = length pk ->
     txout_step mtx st i o
     = if decide (cs = xac)
       then match NewPublicKey pk with
            | Err err => skip ["pubkey scriptsig"] err
            | Ok pub =>
                if HasPubkey pub then store pub 1%Z ["pubkey scriptsig"]
                else skip ["pubkey scriptsig"]
                          ("not concerened address" +:+ Address pub)
            end
       else skip ["pubkey scriptsig"] errUnsupported) /\
  (length script <> 25%nat ->
   (forall l pk cs,
      script = [l] ++ pk ++ [cs] -> N.to_nat (Byte.to_N l) <> length pk) ->
   txout_step mtx st i o
   = skip [ if (length script <? 25)%nat then errShort else errLong;
            match script with
            | [] => errShort
            | l :: rest =>
                if (length rest <? N.to_nat (Byte.to_N l) + 1)%nat
                then errShort else errLong
            end ]
          errTxoutUnsupported).
Proof.
  intros script hex store skip.
  assert (Hskip : forall line e3,
             Some (log_Println [e3; hex] (log_Println line st)) = skip line e3).
  { intros line e3. unfold skip, log_Println. simpl.
    now rewrite <- app_assoc. }
  assert (Hstore : forall pub ttype line,
             add pub mtx (uint32 i) ttype (log_Println line st)
             = store pub ttype line).
  { intros pub ttype line. unfold add, store.
    now destruct (Tx_TxOut mtx !! N.to_nat (uint32 i)). }
  split; [|split].
  - intros Hlen.
    destruct (parse_Script_25 script Hlen) as ([d h hl ph ev cs] & Hp & Hd).
    cbn [Script.Dup Script.Hash160 Script.HashLength Script.PubHash
         Script.EqualVerify Script.CheckSig] in Hd.
    exists d, h, hl, ph, ev, cs. split; [exact Hd |]. split.
    { apply (f_equal length) in Hd. rewrite Hlen in Hd.
      simpl in Hd. rewrite length_app in Hd. simpl in Hd. lia. }
    unfold txout_step, match_txout. fold script. rewrite Hp.
    rewrite checkTxout_fields.
    destruct (decide (d = x76 /\ h = xa9 /\ hl = x14 /\ ev = x88 /\ cs = xac)).
    + destruct (HasPubHash ph) as [pub|]; [apply Hstore | apply Hskip].
    + apply Hskip.
  - intros Hlen l pk cs Hs Hl.
    unfold txout_step, match_txout. fold script.
    destruct (parse (T := Script.t) script) as [s|e] eqn:E.
    { apply parse_Script_Ok in E. contradiction. }
    rewrite Hs, (parse_Script2_wellformed l cs pk Hl), checkTxout2_fields.
    destruct (decide (cs = xac)); [|apply Hskip].
    destruct (NewPublicKey pk) as [pub|err]; [|apply Hskip].
    destruct (HasPubkey pub); [apply Hstore | apply Hskip].
  - intros Hlen Hno.
    unfold txout_step, match_txout. fold script.
    assert (E1 : parse (T := Script.t) script
                 = Err (if (length script <? 25)%nat
                        then errShort else errLong)).
    { destruct (Nat.ltb_spec (length script) 25).
      - now apply parse_Script_short.
      - apply parse_Script_long. lia. }
    assert (E2 : parse (T := Script2.t) script
                 = Err match script with
                       | [] => errShort
                       | l :: rest =>
                           if (length rest <? N.to_nat (Byte.to_N l) + 1)%nat
                           then errShort else errLong
                       end).
    { destruct script as [|l rest] eqn:Es; [reflexivity |].
      destruct (Nat.ltb_spec (length rest) (N.to_nat (Byte.to_N l) + 1))
        as [Hlt | Hge].
      - now apply parse_Script2_short.
      - apply parse_Script2_long.
        destruct (Nat.eq_dec (length rest) (N.to_nat (Byte.to_N l) + 1)%nat)
          as [Heq | Hne]; [|lia].
        exfalso.
        destruct (last rest) as [cs|] eqn:El.
        + apply last_Some in El as [pk ->].
          rewrite length_app in Heq. simpl in Heq.
          apply (Hno l pk cs); [reflexivity | lia].
        + apply last_None in El as ->. simpl in Heq. lia. }
    rewrite E1, E2. apply Hskip.
Qed.

End Priority.

(** ** A wrong marker byte *)

Section Markers.
Context `{C : Collaborators}.

Lemma Unpack_ScriptSigH_wellformed (sl p30 rsl pr rl ps sl' : byte)
    (r s rest : bytes) :
  N.to_nat (Byte.to_N rl) = length r ->
  N.to_nat (Byte.to_N sl') = length s ->
  Unpack ([sl; p30; rsl; pr; rl] ++ r ++ [ps; sl'] ++ s ++ rest)
  = Some (ScriptSigH.mk sl p30 rsl pr rl r ps sl' s, rest).
Proof.
  intros Hr Hs. unfold Unpack, Unpack_ScriptSigH, rbind, read_byte, rret.
  simpl. rewrite (read_var_app rl r _ Hr). simpl.
  now rewrite (read_var_app sl' s _ Hs).
Qed.

(** X9.  Let the script of an input that is not the coinbase one have the
    layout of a signature script, every length byte right, but one of the
    DER markers other than 0x30, 0x02, 0x02, or a sighash byte other than
    0x01.  Its turn leaves the registry as it is and logs "unsuported
    scriptsig": no key is parsed and [remove] is not called, whoever owns
    the key. *)
Theorem wrong_marker_skipped (i : TxIn) (sl p30 rsl pr rl ps sl' p01 pl : byte)
    (r s pk : bytes) (st : State) :
  ~ (TxIn_Hash i = make_bytes 32 /\ TxIn_Index i = 0xffffffff) ->
  TxIn_Script i
  = [sl; p30; rsl; pr; rl] ++ r ++ [ps; sl'] ++ s ++ [p01; pl] ++ pk ->
  N.to_nat (Byte.to_N rl) = length r ->
  N.to_nat (Byte.to_N sl') = length s ->
  N.to_nat (Byte.to_N pl) = length pk ->
  p30 <> x30 \/ pr <> x02 \/ ps <> x02 \/ p01 <> x01 ->
  txin_step st i
  = {| coins := coins st; logs := logs st ++ [[errUnsupported]] |}.
Proof.
  intros Hncb Hscr Hr Hs Hp Hbad.
  assert (Hcb : is_coinbase i = false).
  { destruct (is_coinbase i) eqn:E; [|reflexivity].
    now apply is_coinbase_true in E. }
  assert (Hneq : forall x y : byte, x <> y -> Byte.eqb x y = false).
  { intros x y Hxy. destruct (Byte.eqb x y) eqn:E; [|reflexivity].
    now apply Byte.byte_dec_bl in E. }
  assert (Heq : forall x : byte, Byte.eqb x x = true)
    by (intros x; now apply Byte.byte_dec_lb).
  unfold txin_step, parseScriptsigH. rewrite Hcb, Hscr.
  rewrite (Unpack_ScriptSigH_wellformed sl p30 rsl pr rl ps sl' r s _ Hr Hs).
  cbn [length app Nat.eqb ScriptSigH.Prefix30 ScriptSigH.PrefixR02
       ScriptSigH.PrefixL02].
  destruct (byte_eq_dec p30 x30) as [-> | H30];
    [|rewrite (Hneq _ _ H30); reflexivity].
  destruct (byte_eq_dec pr x02) as [-> | H02];
    [|rewrite (Hneq _ _ H02), Heq; reflexivity].
  destruct (byte_eq_dec ps x02) as [-> | H02'];
    [|rewrite (Hneq _ _ H02'), !Heq; reflexivity].
  destruct Hbad as [H | [H | [H | H01]]]; try congruence.
  rewrite !Heq. cbn [negb orb].
  rewrite (parseScriptsigT_wellformed p01 pl pk _ Hp).
  unfold checkTxin. cbn [ScriptSigT.Postfix01]. now rewrite (Hneq _ _ H01).
Qed.

End Markers.

(** ** [Coins] under [sort.Sort] *)

Lemma Coins_Swap_lookup (c c' : list Coin) (i j k : nat) :
  Coins_Swap c i j = Some c' ->
  c' !! k = c !! (if decide (k = j) then i else if decide (k = i) then j else k).
Proof.
  unfold Coins_Swap.
  destruct (c !! i) as [x|] eqn:Ei; [|easy].
  destruct (c !! j) as [y|] eqn:Ej; [|easy].
  intros [= <-].
  pose proof (lookup_lt_Some _ _ _ Ei) as Hi.
  pose proof (lookup_lt_Some _ _ _ Ej) as Hj.
  destruct (decide (k = j)) as [-> | Hkj].
  - rewrite list_lookup_insert_eq by (rewrite length_insert; lia). now rewrite Ei.
  - rewrite list_lookup_insert_ne by congruence.
    destruct (decide (k = i)) as [-> | Hki].
    + rewrite list_lookup_insert_eq by lia. now rewrite Ej.
    + now rewrite list_lookup_insert_ne by congruence.
Qed.

(** X10.  [Swap] panics exactly when an index is past the end.  Otherwise
    it exchanges the coins at [i] and [j] and moves no other: the result is
    a permutation of the same length, and a second [Swap] of the same
    positions gives the list back. *)
Theorem Coins_Swap_spec (c : list Coin) (i j : nat) :
  (Coins_Swap c i j = None <-> ~ (i < length c /\ j < length c)%nat) /\
  forall c',
    Coins_Swap c i j = Some c' ->
    c' !! i = c !! j /\ c' !! j = c !! i /\
    (forall k, k <> i -> k <> j -> c' !! k = c !! k) /\
    Coins_Len c' = Coins_Len c /\
    c' ≡ₚ c /\
    Coins_Swap c' i j = Some c.
Proof.
  split.
  - unfold Coins_Swap. split.
    + destruct (c !! i) as [x|] eqn:Ei.
      * destruct (c !! j) as [y|] eqn:Ej; [easy |].
        intros _ [_ Hj]. apply lookup_ge_None in Ej. lia.
      * intros _ [Hi _]. apply lookup_ge_None in Ei. lia.
    + intros Hn.
      destruct (c !! i) as [x|] eqn:Ei; [|reflexivity].
      destruct (c !! j) as [y|] eqn:Ej; [|reflexivity].
      exfalso. apply Hn. split; eapply lookup_lt_Some; eauto.
  - intros c' Hsw.
    pose proof (fun k => Coins_Swap_lookup c c' i j k Hsw) as Hlk.
    assert (Hlen : length c' = length c).
    { unfold Coins_Swap in Hsw.
      destruct (c !! i); [|easy]. destruct (c !! j); [|easy].
      injection Hsw as <-. now rewrite !length_insert. }
    assert (Hii : c' !! i = c !! j).
    { rewrite Hlk. destruct (decide (i = j)) as [-> | _]; [reflexivity |].
      now rewrite decide_True. }
    assert (Hjj : c' !! j = c !! i) by (rewrite Hlk; now rewrite decide_True).
    repeat split; auto.
    + intros k Hki Hkj. rewrite Hlk. now rewrite !decide_False.
    + apply Permutation_inj. split; [exact Hlen |].
      exists (fun k => if decide (k = j) then i
                       else if decide (k = i) then j else k).
      split; [|exact Hlk].
      intros a b. repeat case_decide; congruence.
    + unfold Coins_Swap. rewrite Hii, Hjj.
      unfold Coins_Swap in Hsw.
      destruct (c !! i) as [x|] eqn:Ei; [|easy].
      destruct (c !! j) as [y|] eqn:Ej; [|easy].
      f_equal. apply list_eq. intros k.
      pose proof (lookup_lt_Some _ _ _ Ei) as Hi.
      pose proof (lookup_lt_Some _ _ _ Ej) as Hj.
      destruct (decide (k = j)) as [-> | Hkj].
      * rewrite list_lookup_insert_eq by (rewrite length_insert; lia).
        now rewrite Ej.
      * rewrite list_lookup_insert_ne by congruence.
        destruct (decide (k = i)) as [-> | Hki].
        -- rewrite list_lookup_insert_eq by lia. now rewrite Ei.
        -- rewrite list_lookup_insert_ne by congruence.
           rewrite Hlk. now rewrite !decide_False.
Qed.

(** X11.  [Less] is the strict order of the values: no position is less
    than itself, two positions are never each less than the other, it is
    transitive, and so is "neither is less", which holds exactly when the
    two values are equal.  This is what [sort.Sort] asks of it. *)
Theorem Coins_Less_strict_weak (c : list Coin) (i j k : nat) :
  Coins_Less c i i <> Some true /\
  ~ (Coins_Less c i j = Some true /\ Coins_Less c j i = Some true) /\
  (Coins_Less c i j = Some true -> Coins_Less c j k = Some true ->
   Coins_Less c i k = Some true) /\
  (Coins_Less c i j = Some false /\ Coins_Less c j i = Some false <->
   exists x y, c !! i = Some x /\ c !! j = Some y /\ Value x = Value y) /\
  (Coins_Less c i j = Some false -> Coins_Less c j i = Some false ->
   Coins_Less c j k = Some false -> Coins_Less c k j = Some false ->
   Coins_Less c i k = Some false /\ Coins_Less c k i = Some false).
Proof.
  assert (Hinv : forall a b r,
             Coins_Less c a b = Some r ->
             exists x y, c !! a = Some x /\ c !! b = Some y /\
                         r = (Value x <? Value y)).
  { intros a b r. unfold Coins_Less.
    destruct (c !! a) as [x|]; [|easy]. destruct (c !! b) as [y|]; [|easy].
    intros [= <-]. now exists x, y. }
  assert (Hmk : forall a b x y,
             c !! a = Some x -> c !! b = Some y ->
             Coins_Less c a b = Some (Value x <? Value y)).
  { intros a b x y Ha Hb. unfold Coins_Less. now rewrite Ha, Hb. }
  split; [|split; [|split; [|split]]].
  - intros H. apply Hinv in H as (x & y & Hx & Hy & Hr).
    rewrite Hx in Hy. injection Hy as <-. symmetry in Hr.
    apply N.ltb_lt in Hr. lia.
  - intros [H1 H2].
    apply Hinv in H1 as (x & y & Hx & Hy & Hr1).
    apply Hinv in H2 as (y' & x' & Hy' & Hx' & Hr2).
    rewrite Hx in Hx'. rewrite Hy in Hy'. injection Hx' as <-.
    injection Hy' as <-. symmetry in Hr1, Hr2.
    apply N.ltb_lt in Hr1. apply N.ltb_lt in Hr2. lia.
  - intros H1 H2.
    apply Hinv in H1 as (x & y & Hx & Hy & Hr1).
    apply Hinv in H2 as (y' & z & Hy' & Hz & Hr2).
    rewrite Hy in Hy'. injection Hy' as <-. symmetry in Hr1, Hr2.
    apply N.ltb_lt in Hr1. apply N.ltb_lt in Hr2.
    rewrite (Hmk i k x z Hx Hz). f_equal. apply N.ltb_lt. lia.
  - split.
    + intros [H1 H2].
      apply Hinv in H1 as (x & y & Hx & Hy & Hr1).
      apply Hinv in H2 as (y' & x' & Hy' & Hx' & Hr2).
      rewrite Hx in Hx'. rewrite Hy in Hy'. injection Hx' as <-.
      injection Hy' as <-. symmetry in Hr1, Hr2.
      apply N.ltb_ge in Hr1. apply N.ltb_ge in Hr2.
      exists x, y. repeat split; auto. lia.
    + intros (x & y & Hx & Hy & Hv).
      rewrite (Hmk i j x y Hx Hy), (Hmk j i y x Hy Hx), Hv.
      now rewrite N.ltb_irrefl.
  - intros H1 H2 H3 H4.
    apply Hinv in H1 as (x & y & Hx & Hy & Hr1).
    apply Hinv in H2 as (y' & x' & Hy' & Hx' & Hr2).
    rewrite Hx in Hx'. rewrite Hy in Hy'. injection Hx' as <-.
    injection Hy' as <-.
    apply Hinv in H3 as (y' & z & Hy' & Hz & Hr3).
    apply Hinv in H4 as (z' & y'' & Hz' & Hy'' & Hr4).
    rewrite Hy in Hy', Hy''. rewrite Hz in Hz'. injection Hy' as <-.
    injection Hy'' as <-. injection Hz' as <-.
    symmetry in Hr1, Hr2, Hr3, Hr4.
    apply N.ltb_ge in Hr1. apply N.ltb_ge in Hr2.
    apply N.ltb_ge in Hr3. apply N.ltb_ge in Hr4.
    rewrite (Hmk i k x z Hx Hz), (Hmk k i z x Hz Hx).
    split; f_equal; apply N.ltb_ge; lia.
Qed.

(** * Properties of package [db] *)

(** ** Integers as eight bytes *)

Lemma to_byte_N (n : N) : Byte.to_N (to_byte n) = n mod 256.
Proof.
  unfold to_byte. destruct (Byte.of_N (n mod 256)) as [b|] eqn:E; simpl.
  - now apply Byte.to_of_N.
  - apply Byte.of_N_None_iff in E.
    pose proof (N.mod_upper_bound n 256). lia.
Qed.

Lemma testbit_to_byte (n i : N) :
  N.testbit (Byte.to_N (to_byte n)) i = (i <? 8) && N.testbit n i.
Proof.
  rewrite to_byte_N. change 256 with (2 ^ 8).
  destruct (N.ltb_spec i 8).
  - now rewrite N.mod_pow2_bits_low.
  - now rewrite N.mod_pow2_bits_high.
Qed.

Lemma testbit_byte_at (v k i : N) :
  N.testbit (N.shiftl (Byte.to_N (to_byte (N.shiftr v k))) k) i
  = (k <=? i) && (i <? k + 8) && N.testbit v i.
Proof.
  destruct (N.leb_spec k i) as [Hle | Hlt]; simpl.
  - rewrite N.shiftl_spec_high' by exact Hle.
    rewrite testbit_to_byte, N.shiftr_spec'.
    replace (i - k + k) with i by lia.
    destruct (N.ltb_spec (i - k) 8), (N.ltb_spec i (k + 8));
      try lia; reflexivity.
  - now rewrite N.shiftl_spec_low.
Qed.

Lemma testbit_uint64_high (v i : N) :
  v < 2 ^ 64 -> 64 <= i -> N.testbit v i = false.
Proof.
  intros Hv Hi. rewrite <- (N.mod_small v (2 ^ 64)) by exact Hv.
  now apply N.mod_pow2_bits_high.
Qed.

Lemma Uint64_PutUint64 (v : N) (junk : bytes) :
  v < 2 ^ 64 -> Uint64 (PutUint64 v ++ junk) = Some v.
Proof.
  intros Hv. unfold PutUint64, Uint64. cbn [app]. f_equal.
  apply N.bits_inj. intros i. rewrite !N.lor_spec.
  rewrite testbit_to_byte, !testbit_byte_at.
  destruct (N.testbit v i) eqn:Hb.
  - assert (Hi : i < 64).
    { destruct (N.lt_ge_cases i 64) as [H | H]; [exact H |].
      rewrite (testbit_uint64_high v i Hv H) in Hb. discriminate. }
    rewrite !andb_true_r.
    assert (Hcase : i < 8 \/ 8 <= i < 16 \/ 16 <= i < 24 \/ 24 <= i < 32 \/
                    32 <= i < 40 \/ 40 <= i < 48 \/ 48 <= i < 56 \/
                    56 <= i < 64) by lia.
    repeat destruct Hcase as [Hcase | Hcase];
      repeat match goal with
      | |- context [?a <=? ?b] =>
          (rewrite (proj2 (N.leb_le a b)) by lia)
          || (rewrite (proj2 (N.leb_gt a b)) by lia)
      | |- context [?a <? ?b] =>
          (rewrite (proj2 (N.ltb_lt a b)) by lia)
          || (rewrite (proj2 (N.ltb_ge a b)) by lia)
      end; reflexivity.
  - now rewrite !andb_false_r.
Qed.

Lemma PutUint64_length (v : N) : length (PutUint64 v) = 8%nat.
Proof. reflexivity. Qed.

Lemma int_uint64_round (t : Z) :
  (- 2 ^ 63 <= t < 2 ^ 63)%Z ->
  uint64_of_int t < 2 ^ 64 /\ int_of_uint64 (uint64_of_int t) = t.
Proof.
  intros Ht. unfold uint64_of_int, int_of_uint64.
  assert (Hm : (0 <= t mod 2 ^ 64 < 2 ^ 64)%Z) by (apply Z.mod_pos_bound; lia).
  split; [lia |].
  destruct (Z.lt_ge_cases t 0) as [Hneg | Hpos].
  - assert (E : (t mod 2 ^ 64 = t + 2 ^ 64)%Z).
    { symmetry. apply (Z.mod_unique _ _ (-1)); lia. }
    rewrite E. destruct (N.ltb_spec (Z.to_N (t + 2 ^ 64)) (2 ^ 63)); lia.
  - rewrite Z.mod_small by lia.
    destruct (N.ltb_spec (Z.to_N t) (2 ^ 63)); lia.
Qed.

Section Codec.
Context `{J : Json}.

(** X12.  An unsigned 64-bit value survives [Tob] and [B2v]: [Tob] gives
    exactly eight bytes and no error, and [B2v] into a [*uint64] reads the
    value back from them, also when more bytes follow the eight. *)
Theorem Tob_B2v_uint64 (v : N) (junk : bytes) :
  v < 2 ^ 64 ->
  exists b,
    Tob (VUint64 v) = Ok b /\ length b = 8%nat /\
    B2v (b ++ junk) TUint64 = Some (SUint64 v, None).
Proof.
  intros Hv. exists (PutUint64 v). repeat split.
  unfold B2v. now rewrite (Uint64_PutUint64 v junk Hv).
Qed.

(** X13.  A signed 64-bit value, negative ones too, survives [Tob] and
    [B2v], as an [int64] into an [*int64] and as an [int] into an [*int]:
    eight bytes out, the same value back. *)
Theorem Tob_B2v_int64 (t : Z) :
  (- 2 ^ 63 <= t < 2 ^ 63)%Z ->
  exists b,
    Tob (VInt64 t) = Ok b /\ Tob (VInt t) = Ok b /\ length b = 8%nat /\
    B2v b TInt64 = Some (SInt64 t, None) /\
    B2v b TInt = Some (SInt t, None).
Proof.
  intros Ht. destruct (int_uint64_round t Ht) as [Hu Hr].
  exists (PutUint64 (uint64_of_int t)).
  pose proof (Uint64_PutUint64 (uint64_of_int t) [] Hu) as E.
  rewrite app_nil_r in E.
  repeat split; unfold B2v; now rewrite E, Hr.
Qed.

(** X14.  [B2v] into an integer pointer panics on fewer than eight bytes:
    it returns neither a value nor an error. *)
Theorem B2v_short_panics (from : bytes) (to : target) :
  (length from < 8)%nat ->
  to = TInt64 \/ to = TInt \/ to = TUint64 ->
  B2v from to = None.
Proof.
  intros Hlen Hto.
  assert (E : Uint64 from = None).
  { do 8 (destruct from as [|? from]; [reflexivity |]). simpl in Hlen. lia. }
  destruct Hto as [-> | [-> | ->]]; unfold B2v; now rewrite E.
Qed.

End Codec.

(** ** Keys *)

Lemma HasPrefix_spec (s pre : bytes) :
  HasPrefix s pre = true <-> exists t, s = pre ++ t.
Proof.
  unfold HasPrefix. rewrite andb_true_iff, Nat.leb_le, bytes_Equal_eq. split.
  - intros [_ H]. exists (drop (length pre) s).
    rewrite <- H at 1. now rewrite take_drop.
  - intros [t ->]. rewrite length_app, take_app_length. split; [lia | easy].
Qed.

Lemma nul_split_inj (s1 s2 t1 t2 : bytes) :
  x00 ∉ s1 -> x00 ∉ s2 ->
  s1 ++ x00 :: t1 = s2 ++ x00 :: t2 -> s1 = s2 /\ t1 = t2.
Proof.
  revert s2; induction s1 as [|a s1 IH]; intros [|b s2] H1 H2; simpl.
  - now intros [= ->].
  - intros [= <- _]. exfalso. apply H2. now left.
  - intros [= -> _]. exfalso. apply H1. now left.
  - intros [= -> E].
    apply not_elem_of_cons in H1 as [_ H1].
    apply not_elem_of_cons in H2 as [_ H2].
    destruct (IH s2 H1 H2 E) as [-> ->]. now split.
Qed.

Section Keys.
Context `{J : Json}.

Lemma ToKey_from_app (r : bytes) (v : list value) :
  ToKey_from r v = (fun k => r ++ k) <$> ToKey_from [] v.
Proof.
  revert r; induction v as [|vv v IH]; intros r; simpl.
  - now rewrite app_nil_r.
  - destruct (MustTob vv) as [b|]; [|reflexivity].
    rewrite IH. symmetry. rewrite IH.
    destruct (ToKey_from [] v) as [k|]; simpl; [|reflexivity].
    f_equal. destruct vv; now rewrite <- ?app_assoc.
Qed.

Lemma ToKey_cons_string (s : bytes) (rest : list value) :
  ToKey (VString s :: rest) = (fun k => s ++ x00 :: k) <$> ToKey rest.
Proof.
  unfold ToKey. simpl. rewrite ToKey_from_app.
  destruct (ToKey_from [] rest) as [k|]; simpl; [|reflexivity].
  now rewrite <- app_assoc.
Qed.

(** X15.  A key that starts with the string [s1] has the key of the
    string [s2] alone as a prefix exactly when [s1 = s2], provided neither
    string holds a NUL byte: the NUL that [ToKey] puts behind a string
    keeps a scan for "ab" from finding the keys of "abc". *)
Theorem ToKey_string_prefix (s1 s2 : bytes) (rest : list value) (k : bytes) :
  x00 ∉ s1 -> x00 ∉ s2 ->
  ToKey (VString s1 :: rest) = Some k ->
  ToKey [VString s2] = Some (s2 ++ [x00]) /\
  (HasPrefix k (s2 ++ [x00]) = true <-> s1 = s2).
Proof.
  intros H1 H2 Hk. split; [reflexivity |].
  rewrite ToKey_cons_string in Hk.
  destruct (ToKey rest) as [k'|]; [|discriminate]. injection Hk as <-.
  rewrite HasPrefix_spec. split.
  - intros [t E]. rewrite <- app_assoc in E. simpl in E.
    now apply nul_split_inj in E as [-> _].
  - intros ->. exists k'. now rewrite <- app_assoc.
Qed.

Lemma PutUint64_inj (n n' : N) :
  n < 2 ^ 64 -> n' < 2 ^ 64 -> PutUint64 n = PutUint64 n' -> n = n'.
Proof.
  intros Hn Hn' E.
  pose proof (Uint64_PutUint64 n [] Hn) as E1.
  pose proof (Uint64_PutUint64 n' [] Hn') as E2.
  rewrite E in E1. congruence.
Qed.

(** X16.  [ToKey] of a string without NUL and an unsigned 64-bit number is
    the string, a NUL and the eight bytes of the number, and two such
    pairs have the same key only when they are the same pair. *)
Theorem ToKey_string_uint64_inj (s s' : bytes) (n n' : N) :
  x00 ∉ s -> x00 ∉ s' -> n < 2 ^ 64 -> n' < 2 ^ 64 ->
  ToKey [VString s; VUint64 n] = Some (s ++ [x00] ++ PutUint64 n) /\
  (ToKey [VString s; VUint64 n] = ToKey [VString s'; VUint64 n'] ->
   s = s' /\ n = n').
Proof.
  intros Hs Hs' Hn Hn'.
  assert (E : forall t m,
             ToKey [VString t; VUint64 m] = Some (t ++ [x00] ++ PutUint64 m)).
  { intros t m. unfold ToKey. cbn [ToKey_from MustTob Tob app].
    now rewrite <- app_assoc. }
  split; [apply E |]. rewrite !E. intros [= H].
  apply nul_split_inj in H as [-> Hp]; auto.
  split; [reflexivity | now apply PutUint64_inj].
Qed.

End Keys.

(** ** The string prefixes of the keys of a bucket *)

Lemma Byte_eqb_refl (x : byte) : Byte.eqb x x = true.
Proof. now apply Byte.byte_dec_lb. Qed.

Lemma IndexByte_Some (b : bytes) (c : byte) (loc : nat) :
  IndexByte b c = Some loc ->
  b = take loc b ++ c :: drop (S loc) b /\ c ∉ take loc b.
Proof.
  revert loc; induction b as [|x b IH]; intros loc; simpl; [easy |].
  destruct (Byte.eqb x c) eqn:E.
  - intros [= <-]. apply Byte.byte_dec_bl in E as ->. simpl.
    split; [now rewrite drop_0 | apply not_elem_of_nil].
  - destruct (IndexByte b c) as [i|]; [|easy]. intros [= <-].
    destruct (IH i eq_refl) as [Hb Hn]. simpl. split.
    + now rewrite <- Hb.
    + apply not_elem_of_cons. split; [|exact Hn].
      intros ->. rewrite Byte_eqb_refl in E. discriminate.
Qed.

Lemma IndexByte_None (b : bytes) (c : byte) :
  IndexByte b c = None <-> c ∉ b.
Proof.
  induction b as [|x b IH]; simpl.
  - split; [intros _; apply not_elem_of_nil | reflexivity].
  - destruct (Byte.eqb x c) eqn:E.
    + apply Byte.byte_dec_bl in E as ->. split; [discriminate |].
      intros H. exfalso. apply H. now left.
    + rewrite not_elem_of_cons, <- IH.
      destruct (IndexByte b c) as [i|].
      * split; [discriminate | intros [_ H]; discriminate H].
      * split; [|reflexivity]. intros _. split; [|reflexivity].
        intros ->. rewrite Byte_eqb_refl in E. discriminate.
Qed.

(** The three ways the callback goes. *)
Lemma GetPrefixs_fn_cases (p : prefixes) (k : bytes) :
  (exists bl, blast p = Some bl /\ HasPrefix k bl = true /\
              GetPrefixs_fn p k = (p, None))
  \/ ((forall bl, blast p = Some bl -> HasPrefix k bl = false) /\
      (x00 ∉ k) /\ GetPrefixs_fn p k = (p, Some errNoStringPrefix))
  \/ ((forall bl, blast p = Some bl -> HasPrefix k bl = false) /\
      exists r t,
        k = r ++ x00 :: t /\ (x00 ∉ r) /\
        GetPrefixs_fn p k
        = ({| cnt := cnt p ++ [r]; blast := Some (r ++ [x00]) |}, None)).
Proof.
  unfold GetPrefixs_fn.
  destruct (blast p) as [bl|] eqn:Eb.
  - destruct (HasPrefix k bl) eqn:Ep.
    + left. now exists bl.
    + right.
      assert (Hno : forall bl0, Some bl = Some bl0 -> HasPrefix k bl0 = false)
        by (now intros ? [= <-]).
      destruct (IndexByte k x00) as [loc|] eqn:Ei.
      * right. split; [exact Hno |].
        destruct (IndexByte_Some _ _ _ Ei) as [Hk Hn].
        exists (take loc k), (drop (S loc) k). repeat split; auto.
        do 3 f_equal. rewrite Hk at 1.
        rewrite take_app_ge by (rewrite length_take; lia).
        rewrite length_take.
        assert (Hlt : (loc < length k)%nat).
        { apply (f_equal length) in Hk. rewrite length_app in Hk.
          simpl in Hk. rewrite length_take in Hk. lia. }
        replace (loc + 1 - loc `min` length k)%nat with 1%nat by lia.
        reflexivity.
      * left. split; [exact Hno |]. split; [|reflexivity].
        now apply IndexByte_None.
  - right.
    assert (Hno : forall bl0, @None bytes = Some bl0 -> HasPrefix k bl0 = false)
      by easy.
    destruct (IndexByte k x00) as [loc|] eqn:Ei.
    + right. split; [exact Hno |].
      destruct (IndexByte_Some _ _ _ Ei) as [Hk Hn].
      exists (take loc k), (drop (S loc) k). repeat split; auto.
      do 3 f_equal. rewrite Hk at 1.
      rewrite take_app_ge by (rewrite length_take; lia).
      rewrite length_take.
      assert (Hlt : (loc < length k)%nat).
      { apply (f_equal length) in Hk. rewrite length_app in Hk.
        simpl in Hk. rewrite length_take in Hk. lia. }
      replace (loc + 1 - loc `min` length k)%nat with 1%nat by lia.
      reflexivity.
    + left. split; [exact Hno |]. split; [|reflexivity].
      now apply IndexByte_None.
Qed.

Lemma GetPrefixs_each_spec (pairs : list (bytes * bytes)) (p p' : prefixes)
    (err : option error) :
  tied p ->
  GetPrefixs_each pairs p = (p', err) ->
  tied p' /\
  (exists new,
     cnt p' = cnt p ++ new /\
     forall r, r ∈ new ->
       (x00 ∉ r) /\
       exists k, k ∈ pairs.*1 /\ HasPrefix k (r ++ [x00]) = true) /\
  (err = None <-> Forall (fun k => x00 ∈ k) pairs.*1) /\
  (err = None ->
   forall k, k ∈ pairs.*1 ->
     exists r, r ∈ cnt p' /\ HasPrefix k (r ++ [x00]) = true).
Proof.
  revert p; induction pairs as [|[k v] pairs IH]; intros p Ht; simpl.
  - intros [= <- <-]. split; [exact Ht |]. split.
    + exists []. rewrite app_nil_r. split; [reflexivity |].
      intros r Hr. now apply elem_of_nil in Hr.
    + split; [split; [constructor | reflexivity] |].
      intros _ k Hk. now apply elem_of_nil in Hk.
  - destruct (GetPrefixs_fn_cases p k)
      as [(bl & Hb & Hp & ->) | [(Hno & Hnul & ->) | (Hno & r & t & Hk & Hr & ->)]].
    + intros Hrec.
      destruct (IH p Ht Hrec) as (Ht' & (new & Hnew & Hsound) & Herr & Hcov).
      destruct (Ht bl Hb) as (r0 & Hr0 & ->).
      split; [exact Ht' |]. split; [|split].
      * exists new. split; [exact Hnew |]. intros r Hr.
        destruct (Hsound r Hr) as (Hn & k' & Hk' & Hpre).
        split; [exact Hn |]. exists k'. split; [now right | exact Hpre].
      * rewrite Herr. split.
        -- intros H. constructor; [|exact H].
           apply HasPrefix_spec in Hp as [t ->].
           apply elem_of_app. left. apply elem_of_app. right. now left.
        -- intros H. now inversion H.
      * intros He k' Hk'. apply elem_of_cons in Hk' as [-> | Hk'].
        -- exists r0. split; [|exact Hp]. rewrite Hnew.
           apply elem_of_app. now left.
        -- now apply Hcov.
    + intros [= <- <-]. split; [exact Ht |]. split; [|split].
      * exists []. rewrite app_nil_r. split; [reflexivity |].
        intros r Hr. now apply elem_of_nil in Hr.
      * split; [discriminate |]. intros H. inversion H. contradiction.
      * discriminate.
    + intros Hrec.
      assert (Ht1 : tied {| cnt := cnt p ++ [r];
                            blast := Some (r ++ [x00]) |}).
      { intros bl [= <-]. exists r. split; [|reflexivity].
        simpl. apply elem_of_app. right. now left. }
      destruct (IH _ Ht1 Hrec) as (Ht' & (new & Hnew & Hsound) & Herr & Hcov).
      simpl in Hnew.
      assert (Hpre : HasPrefix k (r ++ [x00]) = true).
      { apply HasPrefix_spec. exists t. rewrite Hk. now rewrite <- app_assoc. }
      split; [exact Ht' |]. split; [|split].
      * exists (r :: new). split.
        -- rewrite Hnew, <- app_assoc. reflexivity.
        -- intros r1 Hr1. apply elem_of_cons in Hr1 as [-> | Hr1].
           ++ split; [exact Hr |]. exists k. split; [now left | exact Hpre].
           ++ destruct (Hsound r1 Hr1) as (Hn & k' & Hk' & Hpre').
              split; [exact Hn |]. exists k'. split; [now right | exact Hpre'].
      * rewrite Herr. split.
        -- intros H. constructor; [|exact H]. rewrite Hk.
           apply elem_of_app. right. now left.
        -- intros H. now inversion H.
      * intros He k' Hk'. apply elem_of_cons in Hk' as [-> | Hk'].
        -- exists r. split; [|exact Hpre]. rewrite Hnew.
           apply elem_of_app. left. apply elem_of_app. right. now left.
        -- now apply Hcov.
Qed.

(** X17.  For a bucket that exists, [GetPrefixs] returns no error exactly
    when every key holds a NUL byte.  Each string it returns holds no NUL
    and is, with a NUL behind it, the start of some key of the bucket; and
    when there is no error every key of the bucket starts with one of the
    returned strings and a NUL. *)
Theorem GetPrefixs_spec (tx : BoltTx) (bucket : bytes)
    (pairs : list (bytes * bytes)) :
  tx bucket = Some pairs ->
  exists res err,
    GetPrefixs tx bucket = (res, err) /\
    (err = None <-> Forall (fun k => x00 ∈ k) pairs.*1) /\
    (forall r, r ∈ res ->
       (x00 ∉ r) /\
       exists k, k ∈ pairs.*1 /\ HasPrefix k (r ++ [x00]) = true) /\
    (err = None ->
     forall k, k ∈ pairs.*1 ->
       exists r, r ∈ res /\ HasPrefix k (r ++ [x00]) = true).
Proof.
  intros Hb. unfold GetPrefixs. rewrite Hb.
  destruct (GetPrefixs_each pairs {| cnt := []; blast := None |})
    as [p' err] eqn:E.
  exists (cnt p'), err. split; [reflexivity |].
  assert (Ht : tied {| cnt := []; blast := None |}) by (intros bl [=]).
  destruct (GetPrefixs_each_spec pairs _ p' err Ht E)
    as (_ & (new & Hnew & Hsound) & Herr & Hcov).
  simpl in Hnew. subst new.
  split; [exact Herr |]. split; [exact Hsound | exact Hcov].
Qed.

(** Between two keys that start with [bl], every key starts with [bl]. *)
Lemma bytes_leb_between (bl : bytes) :
  forall k t0 t',
    bytes_leb (bl ++ t0) k = true -> bytes_leb k (bl ++ t') = true ->
    exists t, k = bl ++ t.
Proof.
  induction bl as [|x bl IH]; intros k t0 t'; simpl.
  - intros _ _. now exists k.
  - destruct k as [|y k]; [discriminate |]. simpl.
    destruct (N.ltb_spec (Byte.to_N x) (Byte.to_N y)) as [Hxy | Hxy].
    + intros _.
      destruct (N.ltb_spec (Byte.to_N y) (Byte.to_N x)); [lia |].
      destruct (N.eqb_spec (Byte.to_N y) (Byte.to_N x)); [lia | discriminate].
    + destruct (N.eqb_spec (Byte.to_N x) (Byte.to_N y)) as [E | E];
        [|discriminate].
      intros H1.
      destruct (N.ltb_spec (Byte.to_N y) (Byte.to_N x)); [lia |].
      destruct (N.eqb_spec (Byte.to_N y) (Byte.to_N x)); [|discriminate].
      intros H2. destruct (IH k t0 t' H1 H2) as [t ->].
      assert (x = y).
      { apply (f_equal Byte.of_N) in E. rewrite !Byte.of_to_N in E.
        now injection E. }
      subst y. now exists t.
Qed.

Lemma HasPrefix_between (bl k0 k k' : bytes) :
  bytes_leb k0 k = true -> bytes_leb k k' = true ->
  HasPrefix k0 bl = true -> HasPrefix k' bl = true -> HasPrefix k bl = true.
Proof.
  intros H1 H2 H0 H'.
  apply HasPrefix_spec in H0 as [t0 ->]. apply HasPrefix_spec in H' as [t' ->].
  apply HasPrefix_spec. eapply bytes_leb_between; eauto.
Qed.

Lemma GetPrefixs_each_NoDup (pairs : list (bytes * bytes)) (p p' : prefixes)
    (err : option error) :
  StronglySorted (fun a b => bytes_leb a b = true) pairs.*1 ->
  in_order p pairs.*1 ->
  GetPrefixs_each pairs p = (p', err) ->
  NoDup (cnt p').
Proof.
  revert p; induction pairs as [|[k v] pairs IH]; intros p Hs Hin; simpl.
  - intros [= <- _]. apply Hin.
  - simpl in Hs. apply StronglySorted_inv in Hs as [Hs Hle].
    destruct Hin as (Hnd & Hlast & Hlow).
    destruct (GetPrefixs_fn_cases p k)
      as [(bl & Hb & Hp & ->) | [(Hno & Hnul & ->) | (Hno & r & t & Hk & Hr & ->)]].
    + apply IH; [exact Hs |]. split; [exact Hnd |]. split.
      * intros r k' Hr Hk'. apply Hlast; [exact Hr | now right].
      * intros bl' Hb'. destruct (Hlow bl' Hb') as (k0 & Hk0 & Hall).
        exists k0. split; [exact Hk0 | now inversion Hall].
    + now intros [= <- _].
    + assert (Hpre : HasPrefix k (r ++ [x00]) = true).
      { apply HasPrefix_spec. exists t. rewrite Hk. now rewrite <- app_assoc. }
      apply IH; [exact Hs |]. split; [|split]; simpl.
      * apply NoDup_app. split; [exact Hnd |]. split; [|apply NoDup_singleton].
        intros r0 Hr0 Hr0'. apply list_elem_of_singleton in Hr0' as ->.
        pose proof (Hlast r k Hr0 (list_elem_of_here _ _) Hpre) as Hb.
        rewrite (Hno _ Hb) in Hpre. discriminate.
      * intros r0 k' Hr0 Hk' Hpre'.
        apply elem_of_app in Hr0 as [Hr0 | Hr0].
        -- exfalso.
           pose proof (Hlast r0 k' Hr0 (list_elem_of_further _ _ _ Hk') Hpre')
             as Hb.
           destruct (Hlow _ Hb) as (k0 & Hk0 & Hall).
           pose proof (Forall_inv Hall) as Hk0k. simpl in Hk0k.
           rewrite Forall_forall in Hle.
           pose proof (HasPrefix_between _ k0 k k' Hk0k (Hle k' Hk') Hk0 Hpre')
             as Hkk.
           rewrite (Hno _ Hb) in Hkk. discriminate.
        -- apply list_elem_of_singleton in Hr0 as ->. reflexivity.
      * intros bl [= <-]. exists k. split; [exact Hpre | exact Hle].
Qed.

(** X18.  When the bucket hands its keys over in byte order, as [bolt]
    does, no string comes twice in what [GetPrefixs] returns. *)
Theorem GetPrefixs_NoDup (tx : BoltTx) (bucket : bytes)
    (pairs : list (bytes * bytes)) :
  tx bucket = Some pairs ->
  StronglySorted (fun a b => bytes_leb a b = true) pairs.*1 ->
  NoDup (GetPrefixs tx bucket).1.
Proof.
  intros Hb Hs. unfold GetPrefixs. rewrite Hb.
  destruct (GetPrefixs_each pairs {| cnt := []; blast := None |})
    as [p' err] eqn:E.
  simpl. eapply GetPrefixs_each_NoDup; [exact Hs | | exact E].
  split; [constructor |]. split.
  - intros r k Hr. now apply elem_of_nil in Hr.
  - intros bl [=].
Qed.

(** ** Scans by prefix *)

Lemma bytes_leb_app (p t : bytes) : bytes_leb p (p ++ t) = true.
Proof.
  induction p as [|x p IH]; simpl; [reflexivity |].
  rewrite N.ltb_irrefl, N.eqb_refl. exact IH.
Qed.

Lemma Seek_filter (prefix : bytes) (pairs : list (bytes * bytes)) :
  filter (fun kv => HasPrefix kv.1 prefix = true) (Seek prefix pairs)
  = filter (fun kv => HasPrefix kv.1 prefix = true) pairs.
Proof.
  induction pairs as [|[k v] pairs IH]; simpl; [reflexivity |].
  destruct (bytes_leb prefix k) eqn:E; [reflexivity |].
  rewrite IH, filter_cons_False; [reflexivity |].
  simpl. intros H. apply HasPrefix_spec in H as [t ->].
  rewrite bytes_leb_app in E. discriminate.
Qed.

Lemma Seek_sorted (prefix : bytes) (pairs : list (bytes * bytes)) :
  StronglySorted (fun a b => bytes_leb a b = true) pairs.*1 ->
  StronglySorted (fun a b => bytes_leb a b = true) (Seek prefix pairs).*1.
Proof.
  induction pairs as [|[k v] pairs IH]; simpl; [constructor |].
  intros Hs. destruct (bytes_leb prefix k); [exact Hs |].
  apply IH. now apply StronglySorted_inv in Hs.
Qed.

Lemma Seek_head (prefix : bytes) (pairs : list (bytes * bytes)) :
  match Seek prefix pairs with
  | [] => True
  | (k, _) :: _ => bytes_leb prefix k = true
  end.
Proof.
  induction pairs as [|[k v] pairs IH]; simpl; [exact I |].
  destruct (bytes_leb prefix k) eqn:E; [exact E | exact IH].
Qed.

(** Behind a key that lacks the prefix, yet is not below a key that has
    it, no key of an ordered cursor has the prefix. *)
Lemma filter_after_gap (prefix t0 k : bytes) (c : list (bytes * bytes)) :
  bytes_leb (prefix ++ t0) k = true ->
  HasPrefix k prefix = false ->
  Forall (fun k' => bytes_leb k k' = true) c.*1 ->
  filter (fun kv => HasPrefix kv.1 prefix = true) c = [].
Proof.
  intros Hlow Hk Hall. induction c as [|[k' v'] c IH]; [reflexivity |].
  simpl in Hall. apply Forall_cons in Hall as [Hkk' Hall].
  rewrite filter_cons_False; [now apply IH |].
  simpl. intros H. apply HasPrefix_spec in H as [t' ->].
  destruct (bytes_leb_between prefix k t0 t' Hlow Hkk') as [t ->].
  assert (Ht : HasPrefix (prefix ++ t) prefix = true)
    by (apply HasPrefix_spec; eauto).
  congruence.
Qed.

Lemma Count_loop_sorted (fuel : nat) (prefix t0 : bytes)
    (c : list (bytes * bytes)) (n : nat) :
  prefix <> [] ->
  StronglySorted (fun a b => bytes_leb a b = true) c.*1 ->
  bytes_leb (prefix ++ t0) (cursor_key c) = true \/ c = [] ->
  (length c < fuel)%nat ->
  Count_loop fuel prefix c n
  = Some (n + length (filter (fun kv => HasPrefix kv.1 prefix = true) c))%nat.
Proof.
  intros Hp. revert fuel t0 n; induction c as [|[k v] c IH];
    intros fuel t0 n Hs Hlow Hfuel;
    (destruct fuel as [|fuel]; [simpl in Hfuel; lia |]); simpl.
  - assert (E : HasPrefix [] prefix = false).
    { destruct (HasPrefix [] prefix) eqn:E; [|reflexivity].
      apply HasPrefix_spec in E as [t E]. symmetry in E.
      apply app_eq_nil in E as [-> _]. congruence. }
    rewrite E. f_equal. lia.
  - simpl in Hs. apply StronglySorted_inv in Hs as [Hs Hle].
    destruct Hlow as [Hlow | Hnil]; [|discriminate]. simpl in Hlow.
    destruct (HasPrefix k prefix) eqn:E.
    + rewrite filter_cons_True by exact E. simpl.
      pose proof E as Ek. apply HasPrefix_spec in Ek as [t ->].
      rewrite (IH fuel t (S n) Hs); [f_equal; lia | | simpl in Hfuel; lia].
      destruct c as [|[k2 v2] c]; [now right | left]. simpl.
      now apply Forall_cons in Hle as [Hle _].
    + rewrite filter_cons_False by (simpl; congruence).
      rewrite (filter_after_gap prefix t0 k c Hlow E Hle). simpl.
      f_equal. lia.
Qed.

(** X19.  For a prefix that is not empty and a bucket whose keys come in
    byte order, [Count] ends within one turn per pair and one more, and
    returns, with no error, the number of keys of the bucket that start
    with the prefix. *)
Theorem Count_counts (fuel : nat) (tx : BoltTx) (bucket prefix : bytes)
    (pairs : list (bytes * bytes)) :
  tx bucket = Some pairs ->
  prefix <> [] ->
  StronglySorted (fun a b => bytes_leb a b = true) pairs.*1 ->
  (length pairs < fuel)%nat ->
  Count fuel tx bucket prefix
  = Some (length (filter (fun kv => HasPrefix kv.1 prefix = true) pairs),
          None).
Proof.
  intros Hb Hp Hs Hfuel. unfold Count. rewrite Hb.
  assert (Hlen : (length (Seek prefix pairs) <= length pairs)%nat).
  { clear. induction pairs as [|[k v] pairs IH]; simpl; [lia |].
    destruct (bytes_leb prefix k); simpl; lia. }
  rewrite (Count_loop_sorted fuel prefix [] (Seek prefix pairs) 0 Hp).
  - now rewrite Seek_filter.
  - now apply Seek_sorted.
  - pose proof (Seek_head prefix pairs) as Hh.
    destruct (Seek prefix pairs) as [|[k v] c]; [now right | left].
    simpl. now rewrite app_nil_r.
  - lia.
Qed.

Lemma Count_loop_empty (fuel : nat) (c : list (bytes * bytes)) (n : nat) :
  Count_loop fuel [] c n = None.
Proof.
  revert c n; induction fuel as [|fuel IH]; intros c n; [reflexivity |].
  cbn [Count_loop].
  assert (E : HasPrefix (cursor_key c) [] = true)
    by (apply HasPrefix_spec; eauto).
  rewrite E. apply IH.
Qed.

Section ScanProps.
Context `{J : Json}.

Lemma GetStrings_loop_sorted (fuel : nat) (prefix t0 : bytes)
    (c : list (bytes * bytes)) (acc : list bytes) :
  prefix <> [] ->
  StronglySorted (fun a b => bytes_leb a b = true) c.*1 ->
  bytes_leb (prefix ++ t0) (cursor_key c) = true \/ c = [] ->
  (length c < fuel)%nat ->
  GetStrings_loop fuel prefix c acc
  = Some (acc ++ (filter (fun kv => HasPrefix kv.1 prefix = true) c).*2,
          None).
Proof.
  intros Hp. revert fuel t0 acc; induction c as [|[k v] c IH];
    intros fuel t0 acc Hs Hlow Hfuel;
    (destruct fuel as [|fuel]; [simpl in Hfuel; lia |]); simpl.
  - assert (E : HasPrefix [] prefix = false).
    { destruct (HasPrefix [] prefix) eqn:E; [|reflexivity].
      apply HasPrefix_spec in E as [t E]. symmetry in E.
      apply app_eq_nil in E as [-> _]. congruence. }
    rewrite E. now rewrite app_nil_r.
  - simpl in Hs. apply StronglySorted_inv in Hs as [Hs Hle].
    destruct Hlow as [Hlow | Hnil]; [|discriminate]. simpl in Hlow.
    destruct (HasPrefix k prefix) eqn:E.
    + rewrite filter_cons_True by exact E. simpl.
      pose proof E as Ek. apply HasPrefix_spec in Ek as [t ->].
      rewrite (IH fuel t (acc ++ [v]) Hs);
        [now rewrite <- app_assoc | | simpl in Hfuel; lia].
      destruct c as [|[k2 v2] c]; [now right | left]. simpl.
      now apply Forall_cons in Hle as [Hle _].
    + rewrite filter_cons_False by (simpl; congruence).
      rewrite (filter_after_gap prefix t0 k c Hlow E Hle). simpl.
      now rewrite app_nil_r.
Qed.

(** X20.  For a prefix that is not empty and a bucket whose keys come in
    byte order, [GetStrings] ends within one turn per pair and one more,
    and returns, with no error, the values of the keys that start with the
    prefix, in the order of their keys. *)
Theorem GetStrings_values (fuel : nat) (tx : BoltTx) (bucket prefix : bytes)
    (pairs : list (bytes * bytes)) :
  tx bucket = Some pairs ->
  prefix <> [] ->
  StronglySorted (fun a b => bytes_leb a b = true) pairs.*1 ->
  (length pairs < fuel)%nat ->
  GetStrings fuel tx bucket prefix
  = Some ((filter (fun kv => HasPrefix kv.1 prefix = true) pairs).*2, None).
Proof.
  intros Hb Hp Hs Hfuel. unfold GetStrings. rewrite Hb.
  assert (Hlen : (length (Seek prefix pairs) <= length pairs)%nat).
  { clear. induction pairs as [|[k v] pairs IH]; simpl; [lia |].
    destruct (bytes_leb prefix k); simpl; lia. }
  rewrite (GetStrings_loop_sorted fuel prefix [] (Seek prefix pairs) [] Hp).
  - now rewrite Seek_filter.
  - now apply Seek_sorted.
  - pose proof (Seek_head prefix pairs) as Hh.
    destruct (Seek prefix pairs) as [|[k v] c]; [now right | left].
    simpl. now rewrite app_nil_r.
  - lia.
Qed.

Lemma GetStrings_loop_empty (fuel : nat) (c : list (bytes * bytes))
    (acc : list bytes) :
  GetStrings_loop fuel [] c acc = None.
Proof.
  revert c acc; induction fuel as [|fuel IH]; intros c acc; [reflexivity |].
  cbn [GetStrings_loop].
  assert (E : HasPrefix (cursor_key c) [] = true)
    by (apply HasPrefix_spec; eauto).
  rewrite E. cbn [B2v]. apply IH.
Qed.

(** X21.  With the empty prefix, on a bucket that exists, the loops of
    [Count] and of [GetStrings] never end: the nil key the cursor yields
    past the last pair still has the empty prefix, so no number of turns
    brings a result. *)
Theorem empty_prefix_never_returns (tx : BoltTx) (bucket : bytes)
    (pairs : list (bytes * bytes)) :
  tx bucket = Some pairs ->
  forall fuel,
    Count fuel tx bucket [] = None /\ GetStrings fuel tx bucket [] = None.
Proof.
  intros Hb fuel. unfold Count, GetStrings. rewrite Hb.
  now rewrite Count_loop_empty, GetStrings_loop_empty.
Qed.

End ScanProps.

(** ** These properties at work on the small wallet *)

Section MoreInstances.
Import Demo Demo2.

Lemma wallet_owned_is_key1 (pub : @PublicKey wallet) :
  owned_key pub -> pub = key1.
Proof.
  intros [H | [h H]].
  - now apply bytes_Equal_eq in H.
  - simpl in H. destruct (bytes_Equal h hash1); congruence.
Qed.

Lemma coins_inv_st_paid : coins_inv st_paid.
Proof.
  apply map_Forall_insert_2; [|apply map_Forall_empty].
  apply NoDup_singleton.
Qed.

Lemma reachable_addr_inv_witness :
  reachable st_twice /\ addr_inv st_twice.
Proof.
  assert (H : reachable st_twice).
  { exists [OpTx tx_pay; OpTx tx_pay]. vm_compute. reflexivity. }
  split; [exact H |]. exact (reachable_addr_inv (C := wallet) st_twice H).
Defined.

Lemma Add_touches_owned_only_witness :
  (forall pub : @PublicKey wallet,
     owned_key pub -> @Serialize wallet pub <> stranger) /\
  Add tx_pay initial = Some (st_once, None) /\
  coins st_once !! stranger = coins initial !! stranger.
Proof.
  assert (H1 : forall pub : @PublicKey wallet,
             owned_key pub -> @Serialize wallet pub <> stranger).
  { intros pub Ho. rewrite (wallet_owned_is_key1 pub Ho). discriminate. }
  assert (H2 : Add tx_pay initial = Some (st_once, None))
    by (vm_compute; reflexivity).
  split; [exact H1 |]. split; [exact H2 |].
  exact (Add_touches_owned_only (C := wallet) tx_pay initial st_once None
           stranger H1 H2).
Defined.

Lemma p2pk_output_adds_coin_witness :
  Tx_TxOut tx_pk !! 0%nat
  = Some {| TxOut_Value := 9; TxOut_Script := p2pk |} /\
  N.of_nat 0 < 2 ^ 32 /\
  p2pk = [x03] ++ key1 ++ [xac] /\
  N.to_nat (Byte.to_N x03) = length key1 /\
  length key1 <> 23%nat /\
  @NewPublicKey wallet key1 = Ok key1 /\
  @HasPubkey wallet key1 = true /\
  txout_step tx_pk initial 0 {| TxOut_Value := 9; TxOut_Script := p2pk |}
  = Some {| coins :=
              {[ key1 := [ {| Addr := key1; TxHash := repeat xc0 32;
                              TxIndex := 0; Value := 9; Ttype := 1 |} ] ]};
            logs := [["pubkey scriptsig"]] |}.
Proof.
  assert (H1 : Tx_TxOut tx_pk !! 0%nat
               = Some {| TxOut_Value := 9; TxOut_Script := p2pk |})
    by reflexivity.
  assert (H2 : N.of_nat 0 < 2 ^ 32) by reflexivity.
  assert (H3 : p2pk = [x03] ++ key1 ++ [xac]) by reflexivity.
  assert (H4 : N.to_nat (Byte.to_N x03) = length key1) by reflexivity.
  assert (H5 : length key1 <> 23%nat) by discriminate.
  assert (H6 : @NewPublicKey wallet key1 = Ok key1) by reflexivity.
  assert (H7 : @HasPubkey wallet key1 = true) by reflexivity.
  repeat (split; [assumption |]).
  rewrite (p2pk_output_adds_coin (C := wallet) tx_pk 0 _ x03 key1 key1 initial
             H1 H2 H3 H4 H5 H6 H7).
  reflexivity.
Defined.

Lemma script_of_25_bytes_witness :
  length both = 25%nat /\
  (forall h, both = [x76; xa9; x14] ++ h ++ [x88; xac] ->
             @HasPubHash wallet h = None) /\
  exists st',
    txout_step tx_pay initial 0 {| TxOut_Value := 7; TxOut_Script := both |}
    = Some st' /\ coins st' = coins initial.
Proof.
  assert (H1 : length both = 25%nat) by reflexivity.
  assert (H2 : forall h, both = [x76; xa9; x14] ++ h ++ [x88; xac] ->
                         @HasPubHash wallet h = None)
    by (intros h Hh; discriminate Hh).
  split; [exact H1 |]. split; [exact H2 |].
  exact (script_of_25_bytes (C := wallet) tx_pay initial 0
           {| TxOut_Value := 7; TxOut_Script := both |} H1 H2).
Defined.

Lemma remove_twice_witness :
  coins_inv st_paid /\
  remove key1 (repeat xc1 32) 0 st_paid = (st_spent, None) /\
  Forall (fun c => outpoint c <> (repeat xc1 32, 0))
         (coins_at st_spent (@Serialize wallet key1)) /\
  remove key1 (repeat xc1 32) 0 st_spent = (st_spent, Some errCoinNotFound).
Proof.
  assert (H2 : remove (C := wallet) key1 (repeat xc1 32) 0 st_paid
               = (st_spent, None)) by (vm_compute; reflexivity).
  split; [exact coins_inv_st_paid |]. split; [exact H2 |].
  exact (remove_twice (C := wallet) key1 (repeat xc1 32) 0 st_paid st_spent
           coins_inv_st_paid H2).
Defined.

Lemma add_then_remove_restores_witness :
  Forall (fun c => outpoint c <> (@Hash wallet tx_pay, 0))
         (coins_at initial (@Serialize wallet key1)) /\
  add key1 tx_pay 0 0 initial = Some st_paid /\
  remove key1 (Hash tx_pay) 0 st_paid = (st_spent, None).
Proof.
  assert (H1 : Forall (fun c => outpoint c <> (@Hash wallet tx_pay, 0))
                 (coins_at initial (@Serialize wallet key1)))
    by constructor.
  assert (H2 : add (C := wallet) key1 tx_pay 0 0 initial = Some st_paid)
    by reflexivity.
  split; [exact H1 |]. split; [exact H2 |].
  rewrite (add_then_remove_restores (C := wallet) key1 tx_pay 0 0 initial
             st_paid H1 H2).
  vm_compute. reflexivity.
Defined.

Lemma wellformed_scriptsig_removes_witness :
  ~ (TxIn_Hash spend_in = make_bytes 32
     /\ TxIn_Index spend_in = 0xffffffff) /\
  TxIn_Script spend_in
  = [x09; x30; x06; x02; x01] ++ [x7f] ++ [x02; x01] ++ [x7e]
    ++ [x01; x03] ++ key1 /\
  N.to_nat (Byte.to_N x01) = length [x7f] /\
  N.to_nat (Byte.to_N x01) = length [x7e] /\
  N.to_nat (Byte.to_N x03) = length key1 /\
  @NewPublicKey wallet key1 = Ok key1 /\
  @HasPubkey wallet key1 = true /\
  txin_step st_paid spend_in = st_spent.
Proof.
  assert (H1 : ~ (TxIn_Hash spend_in = make_bytes 32
                  /\ TxIn_Index spend_in = 0xffffffff))
    by (intros [_ H]; discriminate H).
  assert (H2 : TxIn_Script spend_in
               = [x09; x30; x06; x02; x01] ++ [x7f] ++ [x02; x01] ++ [x7e]
                 ++ [x01; x03] ++ key1) by reflexivity.
  assert (H3 : N.to_nat (Byte.to_N x01) = length [x7f]) by reflexivity.
  assert (H4 : N.to_nat (Byte.to_N x01) = length [x7e]) by reflexivity.
  assert (H5 : N.to_nat (Byte.to_N x03) = length key1) by reflexivity.
  assert (H6 : @NewPublicKey wallet key1 = Ok key1) by reflexivity.
  assert (H7 : @HasPubkey wallet key1 = true) by reflexivity.
  repeat (split; [assumption |]).
  rewrite (wellformed_scriptsig_removes (C := wallet) spend_in
             x09 x06 x01 x01 x03 [x7f] [x7e] key1 key1 st_paid
             H1 H2 H3 H4 H5 H6 H7).
  vm_compute. reflexivity.
Defined.

Lemma wrong_marker_skipped_witness :
  ~ (TxIn_Hash bad_in = make_bytes 32 /\ TxIn_Index bad_in = 0xffffffff) /\
  TxIn_Script bad_in
  = [x09; x31; x06; x02; x01] ++ [x7f] ++ [x02; x01] ++ [x7e]
    ++ [x01; x03] ++ key1 /\
  N.to_nat (Byte.to_N x01) = length [x7f] /\
  N.to_nat (Byte.to_N x01) = length [x7e] /\
  N.to_nat (Byte.to_N x03) = length key1 /\
  (x31 <> x30 \/ x02 <> x02 \/ x02 <> x02 \/ x01 <> x01) /\
  txin_step st_paid bad_in
  = {| coins := coins st_paid; logs := logs st_paid ++ [[errUnsupported]] |}.
Proof.
  assert (H1 : ~ (TxIn_Hash bad_in = make_bytes 32
                  /\ TxIn_Index bad_in = 0xffffffff))
    by (intros [_ H]; discriminate H).
  assert (H2 : TxIn_Script bad_in
               = [x09; x31; x06; x02; x01] ++ [x7f] ++ [x02; x01] ++ [x7e]
                 ++ [x01; x03] ++ key1) by reflexivity.
  assert (L1 : N.to_nat (Byte.to_N x01) = length [x7f]) by reflexivity.
  assert (L2 : N.to_nat (Byte.to_N x01) = length [x7e]) by reflexivity.
  assert (L3 : N.to_nat (Byte.to_N x03) = length key1) by reflexivity.
  assert (H3 : x31 <> x30 \/ x02 <> x02 \/ x02 <> x02 \/ x01 <> x01)
    by (left; discriminate).
  repeat (split; [assumption |]).
  exact (wrong_marker_skipped (C := wallet) bad_in
           x09 x31 x06 x02 x01 x02 x01 x01 x03 [x7f] [x7e] key1 st_paid
           H1 H2 L1 L2 L3 H3).
Defined.

Lemma Tob_B2v_uint64_witness :
  258 < 2 ^ 64 /\
  exists b,
    Tob (VUint64 258) = Ok b /\ length b = 8%nat /\
    B2v (b ++ [xff]) TUint64 = Some (SUint64 258, None).
Proof.
  assert (H : 258 < 2 ^ 64) by reflexivity.
  split; [exact H |]. exact (Tob_B2v_uint64 (J := no_json) 258 [xff] H).
Defined.

Lemma Tob_B2v_int64_witness :
  (- 2 ^ 63 <= -2 < 2 ^ 63)%Z /\
  exists b,
    Tob (VInt64 (-2)) = Ok b /\ Tob (VInt (-2)) = Ok b /\ length b = 8%nat /\
    B2v b TInt64 = Some (SInt64 (-2), None) /\
    B2v b TInt = Some (SInt (-2), None).
Proof.
  assert (H : (- 2 ^ 63 <= -2 < 2 ^ 63)%Z) by (split; [discriminate | reflexivity]).
  split; [exact H |]. exact (Tob_B2v_int64 (J := no_json) (-2) H).
Defined.

Lemma B2v_short_panics_witness :
  (length [x01; x02; x03] < 8)%nat /\
  (TUint64 = TInt64 \/ TUint64 = TInt \/ TUint64 = TUint64) /\
  B2v (J := no_json) [x01; x02; x03] TUint64 = None.
Proof.
  assert (H1 : (length [x01; x02; x03] < 8)%nat) by (simpl; lia).
  assert (H2 : TUint64 = TInt64 \/ TUint64 = TInt \/ TUint64 = TUint64)
    by (right; right; reflexivity).
  split; [exact H1 |]. split; [exact H2 |].
  exact (B2v_short_panics (J := no_json) [x01; x02; x03] TUint64 H1 H2).
Defined.

Lemma ToKey_string_prefix_witness :
  (x00 ∉ [x61; x62]) /\ (x00 ∉ [x61]) /\
  ToKey (J := no_json) [VString [x61; x62]; VUint64 1]
  = Some ([x61; x62; x00] ++ PutUint64 1) /\
  ToKey (J := no_json) [VString [x61]] = Some ([x61] ++ [x00]) /\
  (HasPrefix ([x61; x62; x00] ++ PutUint64 1) ([x61] ++ [x00]) = true
   <-> [x61; x62] = [x61]).
Proof.
  assert (H1 : x00 ∉ [x61; x62]).
  { intros H. repeat (apply elem_of_cons in H as [H | H]; [discriminate H |]).
    now apply elem_of_nil in H. }
  assert (H2 : x00 ∉ [x61]).
  { intros H. repeat (apply elem_of_cons in H as [H | H]; [discriminate H |]).
    now apply elem_of_nil in H. }
  assert (H3 : ToKey (J := no_json) [VString [x61; x62]; VUint64 1]
               = Some ([x61; x62; x00] ++ PutUint64 1)) by reflexivity.
  repeat (split; [assumption |]).
  exact (ToKey_string_prefix (J := no_json) [x61; x62] [x61] [VUint64 1] _
           H1 H2 H3).
Defined.

Lemma ToKey_string_uint64_inj_witness :
  (x00 ∉ [x61]) /\ (x00 ∉ [x62]) /\ 1 < 2 ^ 64 /\ 2 < 2 ^ 64 /\
  ToKey (J := no_json) [VString [x61]; VUint64 1]
  = Some ([x61] ++ [x00] ++ PutUint64 1) /\
  (ToKey (J := no_json) [VString [x61]; VUint64 1]
   = ToKey [VString [x62]; VUint64 2] ->
   [x61] = [x62] /\ 1 = 2).
Proof.
  assert (H1 : x00 ∉ [x61]).
  { intros H. repeat (apply elem_of_cons in H as [H | H]; [discriminate H |]).
    now apply elem_of_nil in H. }
  assert (H2 : x00 ∉ [x62]).
  { intros H. repeat (apply elem_of_cons in H as [H | H]; [discriminate H |]).
    now apply elem_of_nil in H. }
  assert (H3 : 1 < 2 ^ 64) by reflexivity.
  assert (H4 : 2 < 2 ^ 64) by reflexivity.
  repeat (split; [assumption |]).
  exact (ToKey_string_uint64_inj (J := no_json) [x61] [x62] 1 2 H1 H2 H3 H4).
Defined.

Lemma spend_keys_sorted :
  StronglySorted (fun a b => bytes_leb a b = true) spend_keys.*1.
Proof. repeat constructor. Qed.

Lemma GetPrefixs_spec_witness :
  one_bucket [x73] = Some spend_keys /\
  GetPrefixs one_bucket [x73] = ([[x61]; [x62]], None) /\
  exists res err,
    GetPrefixs one_bucket [x73] = (res, err) /\
    (err = None <-> Forall (fun k => x00 ∈ k) spend_keys.*1) /\
    (forall r, r ∈ res ->
       (x00 ∉ r) /\
       exists k, k ∈ spend_keys.*1 /\ HasPrefix k (r ++ [x00]) = true) /\
    (err = None ->
     forall k, k ∈ spend_keys.*1 ->
       exists r, r ∈ res /\ HasPrefix k (r ++ [x00]) = true).
Proof.
  assert (H : one_bucket [x73] = Some spend_keys) by reflexivity.
  split; [exact H |]. split; [reflexivity |].
  exact (GetPrefixs_spec one_bucket [x73] spend_keys H).
Defined.

Lemma GetPrefixs_NoDup_witness :
  one_bucket [x73] = Some spend_keys /\
  StronglySorted (fun a b => bytes_leb a b = true) spend_keys.*1 /\
  NoDup (GetPrefixs one_bucket [x73]).1.
Proof.
  assert (H : one_bucket [x73] = Some spend_keys) by reflexivity.
  split; [exact H |]. split; [exact spend_keys_sorted |].
  exact (GetPrefixs_NoDup one_bucket [x73] spend_keys H spend_keys_sorted).
Defined.

Lemma Count_counts_witness :
  one_bucket [x73] = Some spend_keys /\
  [x61; x00] <> [] /\
  StronglySorted (fun a b => bytes_leb a b = true) spend_keys.*1 /\
  (length spend_keys < 4)%nat /\
  Count 4 one_bucket [x73] [x61; x00] = Some (2%nat, None).
Proof.
  assert (H1 : one_bucket [x73] = Some spend_keys) by reflexivity.
  assert (H2 : [x61; x00] <> ([] : bytes)) by discriminate.
  assert (H4 : (length spend_keys < 4)%nat) by (simpl; lia).
  split; [exact H1 |]. split; [exact H2 |].
  split; [exact spend_keys_sorted |]. split; [exact H4 |].
  rewrite (Count_counts 4 one_bucket [x73] [x61; x00] spend_keys
             H1 H2 spend_keys_sorted H4).
  reflexivity.
Defined.

Lemma GetStrings_values_witness :
  one_bucket [x73] = Some spend_keys /\
  [x61; x00] <> [] /\
  StronglySorted (fun a b => bytes_leb a b = true) spend_keys.*1 /\
  (length spend_keys < 4)%nat /\
  GetStrings (J := no_json) 4 one_bucket [x73] [x61; x00]
  = Some ([[x10]; [x11]], None).
Proof.
  assert (H1 : one_bucket [x73] = Some spend_keys) by reflexivity.
  assert (H2 : [x61; x00] <> ([] : bytes)) by discriminate.
  assert (H4 : (length spend_keys < 4)%nat) by (simpl; lia).
  split; [exact H1 |]. split; [exact H2 |].
  split; [exact spend_keys_sorted |]. split; [exact H4 |].
  rewrite (GetStrings_values (J := no_json) 4 one_bucket [x73] [x61; x00]
             spend_keys H1 H2 spend_keys_sorted H4).
  reflexivity.
Defined.

Lemma empty_prefix_never_returns_witness :
  one_bucket [x73] = Some spend_keys /\
  forall fuel,
    Count fuel one_bucket [x73] [] = None /\
    GetStrings (J := no_json) fuel one_bucket [x73] [] = None.
Proof.
  assert (H1 : one_bucket [x73] = Some spend_keys) by reflexivity.
  split; [exact H1 |].
  exact (empty_prefix_never_returns (J := no_json) one_bucket [x73]
           spend_keys H1).
Defined.

Lemma txout_template_priority_witness :
  (length p2pkh = 25%nat /\
   txout_step tx_pay initial 0 {| TxOut_Value := 50; TxOut_Script := p2pkh |}
   = Some {| coins := {[ key1 := [coin1] ]};
             logs := [["pubkeyhash scriptsig"]] |}) /\
  (length p2pk <> 25%nat /\
   p2pk = [x03] ++ key1 ++ [xac] /\
   N.to_nat (Byte.to_N x03) = length key1 /\
   txout_step tx_pk initial 0 {| TxOut_Value := 9; TxOut_Script := p2pk |}
   = Some {| coins :=
               {[ key1 := [ {| Addr := key1; TxHash := repeat xc0 32;
                               TxIndex := 0; Value := 9; Ttype := 1 |} ] ]};
             logs := [["pubkey scriptsig"]] |}) /\
  (length [x05; x01] <> 25%nat /\
   (forall l pk cs,
      [x05; x01] = [l] ++ pk ++ [cs] -> N.to_nat (Byte.to_N l) <> length pk) /\
   txout_step tx_pay initial 0
     {| TxOut_Value := 1; TxOut_Script := [x05; x01] |}
   = Some {| coins := ∅;
             logs := [[@errShort wallet; @errShort wallet];
                      [errTxoutUnsupported;
                       EncodeToString (Hash tx_pay)]] |}).
Proof.
  split; [|split].
  - assert (Hlen : length p2pkh = 25%nat) by reflexivity.
    split; [exact Hlen |].
    destruct (txout_template_priority (C := wallet) tx_pay initial 0
                {| TxOut_Value := 50; TxOut_Script := p2pkh |}) as (H1 & _ & _).
    destruct (H1 Hlen) as (d & h & hl & ph & ev & cs & Hd & Hph & ->).
    cbn [TxOut_Script] in Hd. unfold p2pkh in Hd.
    do 20 (destruct ph as [|? ph]; [discriminate Hph |]).
    destruct ph; [|discriminate Hph].
    injection Hd; intros; subst. vm_compute. reflexivity.
  - assert (Hlen : length p2pk <> 25%nat) by discriminate.
    assert (Hs : p2pk = [x03] ++ key1 ++ [xac]) by reflexivity.
    assert (Hl : N.to_nat (Byte.to_N x03) = length key1) by reflexivity.
    repeat (split; [assumption |]).
    destruct (txout_template_priority (C := wallet) tx_pk initial 0
                {| TxOut_Value := 9; TxOut_Script := p2pk |}) as (_ & H2 & _).
    rewrite (H2 Hlen x03 key1 xac Hs Hl). vm_compute. reflexivity.
  - assert (Hlen : length [x05; x01] <> 25%nat) by discriminate.
    assert (Hno : forall l pk cs,
               [x05; x01] = [l] ++ pk ++ [cs] ->
               N.to_nat (Byte.to_N l) <> length pk).
    { intros l pk cs [= <- Hpk] Hl. apply (f_equal length) in Hpk.
      rewrite length_app in Hpk. simpl in Hpk, Hl. lia. }
    repeat (split; [assumption |]).
    destruct (txout_template_priority (C := wallet) tx_pay initial 0
                {| TxOut_Value := 1; TxOut_Script := [x05; x01] |})
      as (_ & _ & H3).
    rewrite (H3 Hlen Hno). vm_compute. reflexivity.
Defined.

End MoreInstances.
